(** * A shallow embedding of padington-server (Rust) and its specification

  The development follows the crate layout:
  - [command.rs]: the pipe-delimited command codec;
  - [config/folder.rs]: the folder resolver;
  - [lobby/server.rs]: the lobby registry with its reference counts;
  - [channel/mod.rs]: the channel actor and its request handler;
  - [client/mod.rs]: the per-connection session loop.

  Rust [String]s are modelled as [String.string]; every delimiter the code
  looks for ('|', '/') is a one-byte ASCII character, which never occurs
  inside a multi-byte UTF-8 sequence, so splitting on it byte-wise or
  character-wise agrees.  [u64]/[usize] values are [N] with their
  wrap-around written out as [mod 2^64] (64-bit targets, release build). *)

From Stdlib Require Import String Ascii.
From stdpp Require Import base gmap list strings pretty.
From Stdlib Require Import Lia.

Open Scope N_scope.
Set Warnings "-register-all".

Definition WORD : N := 2 ^ 64.

(** [a + b] on a [u64]/[usize]. *)
Definition add64 (a b : N) : N := (a + b) mod WORD.

(* ------------------------------------------------------------------ *)
(** ** Rust string primitives used by the codec and the resolvers *)

Module RustStr.

(** [str::find(c)]: index of the first occurrence of [c]. *)
Fixpoint find (c : ascii) (s : string) : option nat :=
  match s with
  | EmptyString => None
  | String d r =>
      if Ascii.eqb c d then Some 0%nat
      else match find c r with Some i => Some (S i) | None => None end
  end.

(** [str::split_at(mid)]. *)
Definition split_at (s : string) (mid : nat) : string * string :=
  (substring 0 mid s, substring mid (String.length s - mid) s).

(** [str::split(c)]: the pieces between the separators, always at least
    one piece ([""] for the empty string). *)
Fixpoint split (c : ascii) (s : string) : list string :=
  match s with
  | EmptyString => [EmptyString]
  | String d r =>
      if Ascii.eqb c d then EmptyString :: split c r
      else match split c r with
           | [] => [String d EmptyString]
           | h :: t => String d h :: t
           end
  end.

(** [<u64 as FromStr>::from_str] / [<usize as FromStr>::from_str] on a
    64-bit target, following [from_str_radix] with radix 10: the empty
    string, a lone sign, any non-digit and overflow are errors; a single
    leading ['+'] is accepted; ['-'] is an invalid digit for unsigned
    types. *)
Fixpoint digits_value (acc : N) (s : string) : option N :=
  match s with
  | EmptyString => Some acc
  | String d r =>
      let v := N.of_nat (nat_of_ascii d) in
      if (48 <=? v) && (v <=? 57) then
        let acc' := acc * 10 + (v - 48) in
        if acc' <? WORD then digits_value acc' r else None
      else None
  end.

Definition parse_u64 (s : string) : option N :=
  match s with
  | EmptyString => None
  | String "+" EmptyString => None
  | String "-" EmptyString => None
  | String "+" r => digits_value 0 r
  | _ => digits_value 0 s
  end.

End RustStr.

(* ------------------------------------------------------------------ *)
(** ** [command.rs] *)

Module Command.

Inductive CommandKind := KInit | KChat | KSteps | KUpdate | KWebRTC.

Inductive ParseCommandError :=
| MissingArg (k : CommandKind)
| UnknownCommand (s : string).

(** [Command]: [Steps(usize, String)], [WebRTC(u64, String)]. *)
Inductive Command :=
| Chat (text : string)
| Steps (version : N) (payload : string)
| Update (payload : string)
| Init (name : option string)
| Close
| WebRTC (reciever : N) (payload : string).

(** [displaydoc] renderings. *)
Definition kind_display (k : CommandKind) : string :=
  match k with
  | KInit => "init" | KChat => "chat" | KSteps => "steps"
  | KUpdate => "update" | KWebRTC => "webrtc"
  end.

Definition error_display (e : ParseCommandError) : string :=
  match e with
  | MissingArg k =>
      ("The command expected an argument (e.g. `" ++ kind_display k ++ "|foo`)")%string
  | UnknownCommand s => ("The command `" ++ s ++ "` is not known")%string
  end.

(** [impl FromStr for CommandKind]. *)
Definition kind_from_str (s : string) : ParseCommandError + CommandKind :=
  if String.eqb s "init" then inr KInit
  else if String.eqb s "chat" then inr KChat
  else if String.eqb s "steps" then inr KSteps
  else if String.eqb s "update" then inr KUpdate
  else if String.eqb s "webrtc" then inr KWebRTC
  else inl (UnknownCommand s).

(** [fn split_arg]. *)
Definition split_arg (input : string) : string * option string :=
  match RustStr.find "|" input with
  | Some cmd_len =>
      let '(cmd, r) := RustStr.split_at input cmd_len in
      let '(_, arg) := RustStr.split_at r 1 in
      (cmd, Some arg)
  | None => (input, None)
  end.

(** [impl FromStr for Command]. *)
Definition from_str (input : string) : ParseCommandError + Command :=
  let '(cmd, arg) := split_arg input in
  match kind_from_str cmd with
  | inl e => inl e
  | inr KInit => inr (Init arg)
  | inr KChat =>
      match arg with None => inl (MissingArg KChat) | Some text => inr (Chat text) end
  | inr KUpdate =>
      match arg with None => inl (MissingArg KUpdate) | Some text => inr (Update text) end
  | inr KWebRTC =>
      match arg with
      | None => inl (MissingArg KWebRTC)
      | Some text =>
          let '(reciever_str, opt_payload) := split_arg text in
          match opt_payload with
          | None => inl (MissingArg KWebRTC)
          | Some payload =>
              match RustStr.parse_u64 reciever_str with
              | None => inl (MissingArg KWebRTC)
              | Some reciever => inr (WebRTC reciever payload)
              end
          end
      end
  | inr KSteps =>
      match arg with
      | None => inl (MissingArg KSteps)
      | Some text =>
          let '(version_str, opt_steps) := split_arg text in
          match opt_steps with
          | None => inl (MissingArg KSteps)
          | Some steps =>
              match RustStr.parse_u64 version_str with
              | None => inl (MissingArg KSteps)
              | Some version => inr (Steps version steps)
              end
          end
      end
  end.

End Command.

(* ------------------------------------------------------------------ *)
(** ** [config/folder.rs] *)

Module FolderResolver.

(** A [PathBuf] as its list of components; [push] appends one. *)
Definition PathBuf := list string.

(** [struct Folder]: the [HashMap]s are association lists with unique
    keys (a nested [gmap] is not a strictly positive occurrence). *)
Inductive Folder := mkFolder {
  save_dir : option PathBuf;
  channels : list (string * N);
  sub : list (string * Folder);
}.

(** [HashMap::get_mut] on [sub]. *)
Fixpoint sub_get (k : string) (l : list (string * Folder)) : option Folder :=
  match l with
  | [] => None
  | (k', f) :: l' => if String.eqb k k' then Some f else sub_get k l'
  end.

Inductive PathValidity :=
| Invalid
| File (f : Folder) (base_dir : PathBuf) (name : string)
| FolderV (f : Folder) (base_dir : PathBuf).

(** [Folder::check_name_iter]; the [Split] iterator is the list of the
    pieces not consumed yet. *)
Fixpoint check_name_iter (self : Folder) (iter : list string) (curr : string)
    (base_dir : PathBuf) : PathValidity :=
  let base_dir := match save_dir self with Some base => base | None => base_dir end in
  match iter with
  | next :: iter' =>
      match sub_get curr (sub self) with
      | Some s => check_name_iter s iter' next (base_dir ++ [curr])
      | None => Invalid
      end
  | [] => if String.eqb curr "" then FolderV self base_dir else File self base_dir curr
  end.

(** [Folder::check_name]. *)
Definition check_name (self : Folder) (path : string) (base_dir : PathBuf) : PathValidity :=
  match RustStr.split "/" path with
  | EmptyString :: iter =>
      match iter with
      | curr :: iter' => check_name_iter self iter' curr base_dir
      | [] => Invalid
      end
  | _ => Invalid
  end.

(** Walking a list of segments through the subfolder maps. *)
Fixpoint walk (f : Folder) (segs : list string) : option Folder :=
  match segs with
  | [] => Some f
  | s :: segs' => match sub_get s (sub f) with Some g => walk g segs' | None => None end
  end.

End FolderResolver.

(* ------------------------------------------------------------------ *)
(** ** [lobby/server.rs] *)

Module Lobby.

(** [Counter::next]: returns the current value and bumps it. *)
Definition counter_next (c : N) : N * N := (c, add64 c 1).

(** [struct LobbyChannel]; the broadcast, request and termination
    handles are represented by the channel id they belong to. *)
Record LobbyChannel := mkLobbyChannel {
  next_id : N;
  count : N;
  path : string;
}.

(** [struct LobbyState]. *)
Record LobbyState := mkLobbyState {
  next_cid : N;
  channels : gmap N LobbyChannel;
  channel_names : gmap string N;
}.

Definition empty_lobby : LobbyState := mkLobbyState 0 ∅ ∅.

(** The local [PathValidity] of [handle_join_request]. *)
Inductive PathValidity :=
| Invalid
| File (components : list string) (file : string)
| Folder (components : list string).

Definition ascii_alnum_or_dash (c : ascii) : bool :=
  let n := nat_of_ascii c in
  ((48 <=? n) && (n <=? 57))%nat || ((65 <=? n) && (n <=? 90))%nat
  || ((97 <=? n) && (n <=? 122))%nat || Ascii.eqb c "-".

Fixpoint all_chars (p : ascii -> bool) (s : string) : bool :=
  match s with EmptyString => true | String c r => p c && all_chars p r end.

(** The local [fn check_name] of [handle_join_request]. *)
Definition check_name (path : string) : PathValidity :=
  match RustStr.split "/" path with
  | EmptyString :: components =>
      match rev components with
      | file :: rcomps =>
          let components := rev rcomps in
          if forallb (fun c => negb (String.eqb c "") && all_chars ascii_alnum_or_dash c)
               components
          then if String.eqb file "" then Folder components else File components file
          else Invalid
      | [] => Invalid
      end
  | _ => Invalid
  end.

Inductive JoinError := InvalidPath (p : string) | IsFolder (components : list string).

(** [JoinResponse]: the user id and the channel whose request queue and
    broadcast subscription are handed out. *)
Record JoinResponse := mkJoinResponse { jr_id : N; jr_channel : N }.

Inductive LobbyEffect :=
| Reply (r : JoinError + JoinResponse)
| Spawn (channel_id : N) (path : string)
| Terminate (channel_id : N)
| LogError.

Inductive LoopState := Break | Continue.

(** [LobbyState::handle_end]. *)
Definition handle_end (self : LobbyState) (sig : N)
    : LobbyState * LoopState * list LobbyEffect :=
  match channels self !! sig with
  | None => (self, Break, [LogError])
  | Some channel =>
      if count channel <? 1 then (self, Break, [LogError])
      else if count channel =? 1 then
        (mkLobbyState (next_cid self) (delete sig (channels self))
           (delete (path channel) (channel_names self)),
         Continue, [Terminate sig])
      else
        (mkLobbyState (next_cid self)
           (<[sig := mkLobbyChannel (next_id channel) (count channel - 1) (path channel)]>
              (channels self))
           (channel_names self),
         Continue, [])
  end.

(** [LobbyState::handle_join_request]; [None] is the panic of
    [self.channels.get_mut(channel_id).unwrap()]. *)
Definition handle_join_request (self : LobbyState) (msg_path : string)
    : option (LobbyState * list LobbyEffect) :=
  match channel_names self !! msg_path with
  | None =>
      match check_name msg_path with
      | Invalid => Some (self, [Reply (inl (InvalidPath msg_path))])
      | Folder components => Some (self, [Reply (inl (IsFolder components))])
      | File _ _ =>
          let '(channel_id, cid') := counter_next (next_cid self) in
          let '(uid, next_user) := counter_next 0 in
          Some (mkLobbyState cid'
                  (<[channel_id := mkLobbyChannel next_user 1 msg_path]> (channels self))
                  (<[msg_path := channel_id]> (channel_names self)),
                [Spawn channel_id msg_path;
                 Reply (inr (mkJoinResponse uid channel_id))])
      end
  | Some channel_id =>
      match channels self !! channel_id with
      | None => None
      | Some channel =>
          let '(id, next_user) := counter_next (next_id channel) in
          Some (mkLobbyState (next_cid self)
                  (<[channel_id := mkLobbyChannel next_user (add64 (count channel) 1)
                                     (path channel)]> (channels self))
                  (channel_names self),
                [Reply (inr (mkJoinResponse id channel_id))])
      end
  end.

Inductive LobbyEvent := EvJoin (path : string) | EvEnd (channel_id : N).

(** The [LobbyServer::run] loop over a given interleaving of its two
    queues; [None] when the loop has exited (a [Break] or a panic). *)
Fixpoint run (s : LobbyState) (evs : list LobbyEvent) : option LobbyState :=
  match evs with
  | [] => Some s
  | EvJoin p :: evs' =>
      match handle_join_request s p with
      | Some (s', _) => run s' evs'
      | None => None
      end
  | EvEnd c :: evs' =>
      match handle_end s c with
      | (s', Continue, _) => run s' evs'
      | (_, Break, _) => None
      end
  end.

End Lobby.

(* ------------------------------------------------------------------ *)
(** ** [channel/mod.rs] and [channel/doc.rs] *)

Module Channel.
Section ChannelActor.

(** The document-transform library is external: its node tree, its
    steps, [Step::apply] and the JSON values and serializers the actor
    hands to [serde_json]. *)
Context {Node Step StepError Json : Type}.
Variable step_apply : Step -> Node -> StepError + Node.

(** [struct DocState]. *)
Record DocState := mkDocState { doc : Node; version : N }.

(** Modelled from the spec: [DocState::new], called by
    [Channel::handle_messages] on the loaded or freshly seeded document
    but not defined in the sources; "Initialize [version] to 0". *)
Definition DocState_new (d : Node) : DocState := mkDocState d 0.

(** [struct UserConfig]. *)
Record UserConfig := mkUserConfig { cfg_name : option string; cfg_audio : option bool }.

(** [struct Signal] with its only kind, [SignalKind::WebRTC]. *)
Record Signal := mkSignal { sender : N; reciever : N; sig_kind : Json }.

(** [struct UserData]; [sig_tx] names the member's signal queue (an
    [mpsc::Sender<Signal>] clone of the session's queue). *)
Record UserData := mkUserData { name : string; audio : bool; sig_tx : N }.

(** [struct PublicMemberData] and [UserData::public]. *)
Record PublicMemberData := mkPublic { pub_name : string; pub_audio : bool }.
Definition public (u : UserData) : PublicMemberData := mkPublic (name u) (audio u).

Variable ser_doc_state : DocState -> string.
Variable ser_public : PublicMemberData -> string.
Variable ser_peers : gmap N PublicMemberData -> string.

(** [struct InitReply]. *)
Record InitReply := mkInitReply { reply_doc : string; reply_j_peers : string }.

(** [struct StepBatch]. *)
Record StepBatch := mkStepBatch { src : N; steps : list Step }.

(** [enum RequestKind]; for [Init], [response_open] says whether the
    receiving half of the one-shot [response] is still alive. *)
Inductive RequestKind :=
| RChat (text : string)
| RSteps (version : N) (steps : list Step)
| RInit (response_open : bool) (name : option string) (sig_tx : N)
| RSignal (signal : Signal)
| RUpdate (cfg : UserConfig)
| RClose.

Record Request := mkRequest { source : N; kind : RequestKind }.

(** [enum Broadcast]; [Steps] carries the one-element array [[batch]]
    that the source turns into JSON text with [serde_json::to_string]. *)
Inductive Broadcast :=
| BNewUser (remote_id : N) (data : string)
| BUserLeft (id : N)
| BUpdate (id : N) (cfg : UserConfig)
| BSteps (msg : list StepBatch)
| BChatMessage (id : N) (text : string).

(** [struct ChannelState]. *)
Record ChannelState := mkChannelState {
  member_data : gmap N UserData;
  doc_state : DocState;
}.

(** [ChannelState::new]: no members. *)
Definition ChannelState_new (ds : DocState) : ChannelState := mkChannelState ∅ ds.

(** A bounded [mpsc] queue of signals (capacity 20); [sq_open] is false
    once the receiving session is gone. *)
Record SigQueue := mkSigQueue { sq_buf : list Signal; sq_open : bool }.
Definition SIG_CAPACITY : nat := 20.

(** The lobby's queue of end notifications, shared by all channels
    ([mpsc::channel::<ChannelID>(5)] in [LobbyServer::run]). *)
Definition END_CAPACITY : nat := 5.

(** What the actor observes of the other tasks: the signal queues by
    name, the number of live broadcast subscribers (a
    [broadcast::Sender::send] fails when there is none), whether the
    lobby still receives end notifications and how many of them wait in
    its queue. *)
Record World := mkWorld {
  queues : gmap N SigQueue;
  receivers : nat;
  lobby_open : bool;
  end_len : nat;
}.

Inductive LogLevel := Trace | Debug | Info | Warn | Error.

Inductive Effect :=
| EReply (r : InitReply)
| EBroadcast (b : Broadcast)
| EEnd (channel_id : N)
| ELog (l : LogLevel).

(** The result of handling one request: it returns, the task panics
    (an [unwrap] on [None] or [Err]), or it is suspended in an [.await]
    on a full queue. *)
Inductive Outcome :=
| Done (st : ChannelState) (w : World) (effs : list Effect)
| Panic (effs : list Effect)
| Blocked (st : ChannelState) (w : World) (effs : list Effect).

(** [self.bct_tx.send(b)]: [Ok] iff there is a subscriber. *)
Definition bct_send (w : World) (b : Broadcast) : bool * list Effect :=
  if (0 <? receivers w)%nat then (true, [EBroadcast b]) else (false, []).

(** The inner [fn apply_steps]: [first.apply(doc)?] then a left fold
    over [rest], stopping at the first error. *)
Fixpoint apply_rest (d : Node) (rest : list Step) : StepError + Node :=
  match rest with
  | [] => inr d
  | s :: rest' =>
      match step_apply s d with
      | inl e => inl e
      | inr d' => apply_rest d' rest'
      end
  end.

Definition apply_steps (d : Node) (first : Step) (rest : list Step) : StepError + Node :=
  match step_apply first d with
  | inl e => inl e
  | inr new_doc => apply_rest new_doc rest
  end.

(** ["Bear #{}"] with the decimal rendering of the id. *)
Definition default_name (id : N) : string := ("Bear #" ++ pretty id)%string.

(** [ChannelComms::handle_request], for the channel with id [self_id]. *)
Definition handle_request (self_id : N) (c_state : ChannelState) (w : World)
    (request : Request) : Outcome :=
  let id := source request in
  match kind request with
  | RInit response_open nm q =>
      let d := ser_doc_state (doc_state c_state) in
      let new_name := match nm with Some n => n | None => default_name id end in
      let new_data := mkUserData new_name false q in
      let j_data := ser_public (public new_data) in
      let members := <[id := new_data]> (member_data c_state) in
      let peers := public <$> members in
      let j_peers := ser_peers peers in
      let reply := mkInitReply d j_peers in
      let c_state' := mkChannelState members (doc_state c_state) in
      if response_open then
        let '(ok, effs) := bct_send w (BNewUser id j_data) in
        if ok then Done c_state' w ([EReply reply; ELog Info] ++ effs)
        else Panic [EReply reply; ELog Info]
      else Done c_state' w [ELog Error]
  | RChat text =>
      let '(ok, effs) := bct_send w (BChatMessage id text) in
      if ok then Done c_state w (ELog Info :: effs) else Panic [ELog Info]
  | RUpdate cfg =>
      match member_data c_state !! id with
      | None => Panic []
      | Some member =>
          let member1 := match cfg_name cfg with
                         | Some new_name => mkUserData new_name (audio member) (sig_tx member)
                         | None => member end in
          let member2 := match cfg_audio cfg with
                         | Some a => mkUserData (name member1) a (sig_tx member1)
                         | None => member1 end in
          let log_name := match cfg_name cfg with Some _ => [ELog Info] | None => [] end in
          let c_state' := mkChannelState (<[id := member2]> (member_data c_state))
                            (doc_state c_state) in
          let '(ok, effs) := bct_send w (BUpdate id cfg) in
          Done c_state' w (log_name ++ if ok then effs else [ELog Error])
      end
  | RSignal signal =>
      match member_data c_state !! reciever signal with
      | None => Panic []
      | Some member =>
          (* [member.sig_tx.send(signal).await] *)
          match queues w !! sig_tx member with
          | Some q =>
              if sq_open q then
                if (length (sq_buf q) <? SIG_CAPACITY)%nat then
                  Done c_state
                    (mkWorld (<[sig_tx member := mkSigQueue (sq_buf q ++ [signal]) true]>
                                (queues w)) (receivers w) (lobby_open w) (end_len w))
                    [ELog Trace]
                else Blocked c_state w [ELog Trace]
              else Done c_state w [ELog Trace; ELog Warn]
          | None => Done c_state w [ELog Trace; ELog Warn]
          end
      end
  | RSteps v stps =>
      if v =? version (doc_state c_state) then
        match stps with
        | first :: rest =>
            match apply_steps (doc (doc_state c_state)) first rest with
            | inr new_doc =>
                let ds := mkDocState new_doc
                            (add64 (version (doc_state c_state)) (N.of_nat (length stps))) in
                let c_state' := mkChannelState (member_data c_state) ds in
                let '(ok, effs) := bct_send w (BSteps [mkStepBatch id stps]) in
                if ok then Done c_state' w (ELog Info :: effs) else Panic [ELog Info]
            | inl _ => Done c_state w [ELog Info; ELog Warn]
            end
        | [] => Done c_state w [ELog Info; ELog Debug]
        end
      else Done c_state w [ELog Info]
  | RClose =>
      let c_state' := mkChannelState (delete id (member_data c_state)) (doc_state c_state) in
      let '(ok, effs) := bct_send w (BUserLeft id) in
      let effs1 := ELog Info :: (if ok then effs else [ELog Info]) in
      (* [self.end_tx.send(self.id).await]: waits while the lobby's queue
         is full; the member is already removed *)
      if lobby_open w then
        if (end_len w <? END_CAPACITY)%nat then
          Done c_state' (mkWorld (queues w) (receivers w) true (S (end_len w)))
            (effs1 ++ [EEnd self_id])
        else Blocked c_state' w effs1
      else Done c_state' w (effs1 ++ [ELog Error])
  end.

(** The request branch of the [handle_messages] loop, over the requests
    in queue order, until the task panics or is suspended. *)
Fixpoint run (self_id : N) (st : ChannelState) (w : World) (reqs : list Request)
    : ChannelState * World * list Effect :=
  match reqs with
  | [] => (st, w, [])
  | r :: reqs' =>
      match handle_request self_id st w r with
      | Done st' w' effs =>
          let '(st'', w'', effs') := run self_id st' w' reqs' in (st'', w'', effs ++ effs')
      | Panic effs => (st, w, effs)
      | Blocked st' w' effs => (st', w', effs)
      end
  end.

End ChannelActor.
End Channel.

(* ------------------------------------------------------------------ *)
(** ** [client/mod.rs] *)

Module Session.
Section ClientSession.

Context {Step Json : Type}.

(** The [serde_json] parsers and printers the session calls. *)
Variable parse_update : string -> option Channel.UserConfig.
Variable parse_json : string -> option Json.
Variable parse_steps : string -> option (list Step).
Variable ser_json : Json -> string.
Variable ser_cfg : Channel.UserConfig -> string.
Variable ser_batches : list (@Channel.StepBatch Step) -> string.

Abbreviation Request := (@Channel.Request Step Json).
Abbreviation Broadcast := (@Channel.Broadcast Step).
Abbreviation Signal := (@Channel.Signal Json).

(** [tungstenite::Message]. *)
Inductive Message :=
| Text (t : string)
| Binary (b : list Byte.byte)
| Ping (p : list Byte.byte)
| Pong (p : list Byte.byte)
| Close.

(** What a handler does to the outside: a frame written to the socket,
    a request delivered to the channel's queue, or a log line. *)
Inductive SEffect := SSend (m : Message) | SRequest (r : Request) | SLog.

Inductive CommandRes := Break | Continue.

(** The outcomes of the awaits of one handler: whether the socket accepts
    writes, whether the channel's request queue is still open, the
    one-shot reply to an [Init] ([None]: the channel dropped it), and the
    name of the session's own signal queue. *)
Record Env := mkEnv {
  ws_ok : bool;
  chan_ok : bool;
  init_reply : option Channel.InitReply;
  own_queue : N;
}.

(** [ws_sender.send(m).await]; [false] is the [Err] that [?] returns. *)
Definition ws_send (env : Env) (m : Message) : list SEffect * bool :=
  if ws_ok env then ([SSend m], true) else ([], false).

(** [msg_tx.send(req).await]. *)
Definition req_send (env : Env) (r : Request) : list SEffect * bool :=
  if chan_ok env then ([SRequest r], true) else ([SLog], false).

(** [fn handle_command]; [inl tt] is the [Err] of a failed socket write. *)
Definition handle_command (env : Env) (id : N)
    (cmd_res : Command.ParseCommandError + Command.Command)
    : list SEffect * (unit + CommandRes) :=
  let send_req k :=
    let '(effs, ok) := req_send env (Channel.mkRequest id k) in
    (effs, inr (if ok then Continue else Break)) in
  match cmd_res with
  | inr (Command.Init nm) =>
      let '(effs, ok) := req_send env
                           (Channel.mkRequest id (Channel.RInit true nm (own_queue env))) in
      if ok then
        match init_reply env with
        | Some state =>
            let '(e1, ok1) := ws_send env (Text ("init|" ++ pretty id ++ "|"
                                                 ++ Channel.reply_doc state)%string) in
            if ok1 then
              let '(e2, ok2) := ws_send env (Text ("peers|" ++ Channel.reply_j_peers state)%string) in
              if ok2 then (effs ++ e1 ++ e2, inr Continue) else (effs ++ e1 ++ e2, inl tt)
            else (effs ++ e1, inl tt)
        | None => (effs ++ [SLog], inr Continue)
        end
      else (effs, inr Break)
  | inr (Command.Chat msg) => send_req (Channel.RChat msg)
  | inr (Command.Update payload) =>
      match parse_update payload with
      | Some cfg => let '(effs, r) := send_req (Channel.RUpdate cfg) in (SLog :: effs, r)
      | None => ([SLog], inr Break)
      end
  | inr (Command.WebRTC rcv payload) =>
      match parse_json payload with
      | Some value => send_req (Channel.RSignal (Channel.mkSignal id rcv value))
      | None => ([SLog], inr Break)
      end
  | inr (Command.Steps version str) =>
      match parse_steps str with
      | Some stps => let '(effs, r) := send_req (Channel.RSteps version stps) in (SLog :: effs, r)
      | None => ([SLog; SLog], inr Break)
      end
  | inr Command.Close =>
      let '(effs, _) := req_send env (Channel.mkRequest id Channel.RClose) in
      (effs, inr Break)
  | inl err =>
      let '(effs, ok) := ws_send env (Text ("error|" ++ Command.error_display err)%string) in
      if ok then (effs, inr Continue) else (effs, inl tt)
  end.

(** [fn submit_close]. *)
Definition submit_close (env : Env) (id : N) : list SEffect :=
  let '(effs, ok) := req_send env (Channel.mkRequest id Channel.RClose) in
  if ok then effs ++ [SLog] else effs.

(** [fn handle_message]: the [CommandRes] of [handle_command] is
    discarded ([handle_command(..).await?;]). *)
Definition handle_message (env : Env) (id : N) (msg : Message)
    : list SEffect * (unit + CommandRes) :=
  match msg with
  | Text t =>
      let '(effs, r) := handle_command env id (Command.from_str t) in
      match r with inl e => (effs, inl e) | inr _ => (effs, inr Continue) end
  | Binary b =>
      let '(effs, ok) := ws_send env (Binary b) in
      (effs, if ok then inr Continue else inl tt)
  | Close => (SLog :: submit_close env id, inr Break)
  | Ping p =>
      let '(effs, ok) := ws_send env (Pong p) in
      if ok then (effs, inr Continue) else (SLog :: submit_close env id, inr Break)
  | Pong _ => ([], inr Continue)
  end.

(** [fn handle_broadcast]: the text frame of each broadcast. *)
Definition render_broadcast (b : Broadcast) : string :=
  match b with
  | Channel.BChatMessage id text => "chat|" ++ pretty id ++ "|" ++ text
  | Channel.BNewUser rid data => "new-user|" ++ pretty rid ++ "|" ++ data
  | Channel.BUpdate id cfg => "update|" ++ pretty id ++ "|" ++ ser_cfg cfg
  | Channel.BUserLeft id => "user-left|" ++ pretty id
  | Channel.BSteps msg => "steps|" ++ ser_batches msg
  end%string.

(** [dur.as_micros().to_le_bytes()]: 16 little-endian bytes. *)
Fixpoint le_bytes (k : nat) (n : N) : list Byte.byte :=
  match k with
  | O => []
  | S k' =>
      match Byte.of_N (n mod 256) with
      | Some b => b | None => Byte.x00
      end :: le_bytes k' (n / 256)
  end.

(** The four sources of the main loop, as one item each: a WebSocket
    message, an error or the end of the WebSocket stream, a heartbeat
    tick (micros since the session started), a broadcast ([inl tt] is a
    lag error, [None] the end of the stream) and a directed signal. *)
Inductive Event :=
| EvMessage (m : Message)
| EvStreamError
| EvStreamEnd
| EvTick (micros : N)
| EvBroadcast (b : option (unit + Broadcast))
| EvSignal (s : option Signal).

(** One iteration of the loop of [handle_connection] for user [id];
    [Break] leaves the loop. *)
Definition session_step (env : Env) (id : N) (ev : Event) : list SEffect * CommandRes :=
  match ev with
  | EvMessage m =>
      match handle_message env id m with
      | (effs, inr r) => (effs, r)
      | (effs, inl _) => (effs ++ [SLog], Break)
      end
  | EvStreamError => (SLog :: submit_close env id, Break)
  | EvStreamEnd => (SLog :: submit_close env id, Break)
  | EvTick micros =>
      let '(effs, ok) := ws_send env (Ping (le_bytes 16 micros)) in
      if ok then (effs, Continue) else (SLog :: submit_close env id, Break)
  | EvBroadcast (Some (inr b)) =>
      let '(effs, ok) := ws_send env (Text (render_broadcast b)) in
      (if ok then effs else [SLog], Continue)
  | EvBroadcast (Some (inl _)) => ([SLog], Continue)
  | EvBroadcast None => ([SLog], Continue)
  | EvSignal (Some s) =>
      let '(effs, ok) := ws_send env (Text ("webrtc|" ++ pretty (Channel.sender s) ++ "|"
                                             ++ ser_json (Channel.sig_kind s))%string) in
      (if ok then effs else [SLog], Continue)
  | EvSignal None => ([], Continue)
  end.

End ClientSession.
End Session.

(* ------------------------------------------------------------------ *)
(** ** [client/mod.rs]: the WebSocket handshake callback *)

Module Handshake.

Definition SEC_WEBSOCKET_PROTOCOL : string := "sec-websocket-protocol".
Definition ACCESS_CONTROL_ALLOW_ORIGIN : string := "access-control-allow-origin".
Definition NOT_ACCEPTABLE : N := 406.

(** An [http::Uri], as far as the server reads it. *)
Record Uri := mkUri { uri_path : string; uri_query : option string }.

(** [HeaderMap::get]: the first value stored under a (lower-case) name. *)
Fixpoint header_get (k : string) (hs : list (string * string)) : option string :=
  match hs with
  | [] => None
  | (k', v) :: hs' => if String.eqb k k' then Some v else header_get k hs'
  end.

(** What the callback returns to tungstenite: the upgrade response (after
    the URI went out on the one-shot), an error response with its status
    and body, or the panic of [todo!] when the one-shot's receiver is
    gone. *)
Inductive CallbackResult :=
| Accept (rep_headers : list (string * string)) (sent : Uri)
| Reject (status : N) (body : option string)
| CallbackPanic.

Section Callback.

(** [format!("{:?}", value)] of a [HeaderValue]. *)
Variable debug_header : string -> string.

(** The closure of [make_callback] applied to the upgrade request (its
    headers and URI) and the prepared response headers; [rx_open] says
    whether the receiving half of [tx] is alive. *)
Definition make_callback (rx_open : bool) (req_headers : list (string * string)) (uri : Uri)
    (rep_headers : list (string * string)) : CallbackResult :=
  match header_get SEC_WEBSOCKET_PROTOCOL req_headers with
  | Some value =>
      if String.eqb value "padington" then
        let rep_headers' := rep_headers ++ [(SEC_WEBSOCKET_PROTOCOL, value);
                                            (ACCESS_CONTROL_ALLOW_ORIGIN, "*")] in
        if rx_open then Accept rep_headers' uri else CallbackPanic
      else Reject NOT_ACCEPTABLE (Some ("Invalid protocol " ++ debug_header value)%string)
  | None => Reject NOT_ACCEPTABLE (Some "Missing Sec-WebSocket-Protocol header")
  end.

End Callback.
End Handshake.

(* ------------------------------------------------------------------ *)
(** ** [lobby/mod.rs] and the start of [handle_connection] *)

Module Connect.
Import Lobby.

(** [JoinError] as the client sees it: the request could not be sent, the
    reply never came (the lobby dropped the one-shot), or the lobby's
    answer was an error. *)
Inductive ClientJoinError := SendFailed | RecvFailed | Refused (e : JoinError).

(** The lobby's answer among the effects of [handle_join_request]. *)
Fixpoint reply_of (effs : list LobbyEffect) : option (JoinError + JoinResponse) :=
  match effs with
  | [] => None
  | Reply r :: _ => Some r
  | _ :: effs' => reply_of effs'
  end.

(** [LobbyClient::join_channel], with the lobby task handling the request
    at once; [None] for the lobby state is the lobby task gone by a
    panic. *)
Definition join_channel (lobby_open : bool) (s : LobbyState) (p : string)
    : option LobbyState * (ClientJoinError + JoinResponse) :=
  if lobby_open then
    match handle_join_request s p with
    | None => (None, inl RecvFailed)
    | Some (s', effs) =>
        (Some s', match reply_of effs with
                  | Some (inl e) => inl (Refused e)
                  | Some (inr r) => inr r
                  | None => inl RecvFailed
                  end)
    end
  else (Some s, inl SendFailed).

(** How the start of [handle_connection] ends: the handshake was refused,
    the task panicked, it returned an error, it told the client the path
    is a folder and closed, or the client joined a channel. *)
Inductive ConnOutcome :=
| Rejected (status : N) (body : option string)
| Panicked
| Failed
| FolderClosed (frames : list Session.Message)
| Joined (jr : JoinResponse) (path : string).

Section Prelude.

Variable debug_header : string -> string.
(** [urlencoding::decode]; [None] when the decoded bytes are not UTF-8. *)
Variable url_decode : string -> option string.
(** The lobby's [format!("{:?}", components)] of a folder path. *)
Variable debug_components : list string -> string.

(** [handle_connection] up to the main loop: handshake, path decoding and
    the join; [ws_ok] says whether the socket takes writes. *)
Definition connect (rx_open ws_ok lobby_open : bool) (req_headers : list (string * string))
    (uri : Handshake.Uri) (s : LobbyState) : option LobbyState * ConnOutcome :=
  match Handshake.make_callback debug_header rx_open req_headers uri [] with
  | Handshake.Reject st b => (Some s, Rejected st b)
  | Handshake.CallbackPanic => (Some s, Panicked)
  | Handshake.Accept _ sent =>
      match url_decode (Handshake.uri_path sent) with
      | None => (Some s, Failed)
      | Some p =>
          let '(s', r) := join_channel lobby_open s p in
          (s', match r with
               | inr jr => Joined jr p
               | inl (Refused (IsFolder comps)) =>
                   if ws_ok
                   then FolderClosed [Session.Text ("folder|" ++ debug_components comps)%string;
                                      Session.Close]
                   else Failed
               | inl _ => Failed
               end)
      end
  end.

End Prelude.
End Connect.

(* ------------------------------------------------------------------ *)
(** ** [util/http.rs] *)

Module Http.

Inductive Error := Io | ToStr.

Section WriteResponse.

(** The [http] crate's renderings: [{:?}] of a [Version] (["HTTP/1.1"]),
    [{}] of a [StatusCode] (["406 Not Acceptable"]) and
    [HeaderValue::to_str], which fails on bytes that are not visible
    ASCII. *)
Context {Version : Type}.
Variable debug_version : Version -> string.
Variable display_status : N -> string.
Variable to_str : list Byte.byte -> option string.

Definition crlf : string := String "013"%char (String "010"%char EmptyString).

(** The header loop: each [writeln!(w, "{}: {}\r", k, v.to_str()?)]; the
    [?] leaves before the failing header's line is written. *)
Fixpoint write_headers (hs : list (string * list Byte.byte)) : string * bool :=
  match hs with
  | [] => (EmptyString, true)
  | (k, v) :: hs' =>
      match to_str v with
      | None => (EmptyString, false)
      | Some vs =>
          let '(o, ok) := write_headers hs' in ((k ++ ": " ++ vs ++ crlf) ++ o, ok)
      end
  end%string.

(** [write_response] into a writer that takes every write: what was
    written, and the result. *)
Definition write_response (version : Version) (status : N)
    (hs : list (string * list Byte.byte)) : string * (Error + unit) :=
  let status_line := (debug_version version ++ " " ++ display_status status ++ crlf)%string in
  let '(o, ok) := write_headers hs in
  if ok then ((status_line ++ o ++ crlf)%string, inr tt)
  else ((status_line ++ o)%string, inl ToStr).

End WriteResponse.
End Http.

(* ================================================================== *)
(** * Properties *)

(* ------------------------------------------------------------------ *)
(** ** The command codec *)

Module CommandFacts.
Import Command.
Local Arguments Ascii.eqb : simpl never.

Example from_str_chat_pipes : from_str "chat|a|b" = inr (Chat "a|b").
Proof. reflexivity. Qed.
Example from_str_steps_tail : from_str "steps|12|[1,2]|x" = inr (Steps 12 "[1,2]|x").
Proof. reflexivity. Qed.
Example from_str_close : from_str "close" = inl (UnknownCommand "close").
Proof. reflexivity. Qed.
Example from_str_webrtc_plus : from_str "webrtc|+7|{}" = inr (WebRTC 7 "{}").
Proof. reflexivity. Qed.
Example from_str_steps_neg : from_str "steps|-1|[]" = inl (MissingArg KSteps).
Proof. reflexivity. Qed.

Lemma substring_prefix (h s : string) :
  substring 0 (String.length h) (h ++ s) = h.
Proof. induction h as [|c h IH]; simpl; [now destruct s | now rewrite IH]. Qed.

Lemma substring_whole (s : string) : substring 0 (String.length s) s = s.
Proof. induction s as [|c s IH]; simpl; [reflexivity | now rewrite IH]. Qed.

Lemma substring_app_skip (h s : string) (n : nat) :
  substring (String.length h) n (h ++ s) = substring 0 n s.
Proof. induction h as [|c h IH]; simpl; [reflexivity | exact IH]. Qed.

Lemma length_append (h s : string) :
  String.length (h ++ s) = (String.length h + String.length s)%nat.
Proof. induction h as [|c h IH]; simpl; [reflexivity | now rewrite IH]. Qed.

Lemma find_bar_app (h r : string) :
  RustStr.find "|" h = None ->
  RustStr.find "|" (h ++ String "|" r) = Some (String.length h).
Proof.
  induction h as [|c h IH]; simpl; intros H; [reflexivity|].
  destruct (Ascii.eqb "|" c); [discriminate|].
  destruct (RustStr.find "|" h) eqn:E; [discriminate|].
  now rewrite IH.
Qed.

(** [split_arg] cuts at the first ['|'] and drops it. *)
Lemma split_arg_first_bar (h r : string) :
  RustStr.find "|" h = None -> split_arg (h ++ String "|" r) = (h, Some r).
Proof.
  intros Hh. unfold split_arg. rewrite (find_bar_app h r Hh).
  unfold RustStr.split_at. rewrite substring_prefix, length_append, substring_app_skip.
  replace (String.length h + String.length (String "|" r) - String.length h)%nat
    with (String.length (String "|" r)) by lia.
  rewrite substring_whole. simpl. rewrite Nat.sub_0_r, substring_whole. reflexivity.
Qed.

Lemma split_arg_no_bar (s : string) :
  RustStr.find "|" s = None -> split_arg s = (s, None).
Proof. intros H. unfold split_arg. now rewrite H. Qed.

End CommandFacts.

Module CommandClaims.
Import Command CommandFacts.
Local Arguments Ascii.eqb : simpl never.

Lemma kind_from_str_steps : kind_from_str "steps" = inr KSteps.
Proof. reflexivity. Qed.
Lemma kind_from_str_webrtc : kind_from_str "webrtc" = inr KWebRTC.
Proof. reflexivity. Qed.
Lemma kind_from_str_chat : kind_from_str "chat" = inr KChat.
Proof. reflexivity. Qed.

(** C8: [split_arg] splits once, on the first ['|']; the text of
    ["chat|" ++ t] is [t] verbatim whatever [t] contains; for [steps] and
    [webrtc] the argument is split once more, the first field being the
    text before its first ['|'] and the payload the whole remainder. *)
Theorem split_rule_chat_steps_webrtc :
  (forall h r : string, RustStr.find "|" h = None ->
     split_arg (h ++ String "|" r) = (h, Some r)) /\
  (forall s : string, RustStr.find "|" s = None -> split_arg s = (s, None)) /\
  (forall t : string, from_str ("chat|" ++ t) = inr (Chat t)) /\
  (forall v p : string, RustStr.find "|" v = None ->
     from_str ("steps|" ++ v ++ "|" ++ p) =
     match RustStr.parse_u64 v with
     | Some n => inr (Steps n p)
     | None => inl (MissingArg KSteps)
     end) /\
  (forall v p : string, RustStr.find "|" v = None ->
     from_str ("webrtc|" ++ v ++ "|" ++ p) =
     match RustStr.parse_u64 v with
     | Some n => inr (WebRTC n p)
     | None => inl (MissingArg KWebRTC)
     end).
Proof.
  split; [exact split_arg_first_bar|].
  split; [exact split_arg_no_bar|].
  split; [|split].
  - intros t.
    change ("chat|" ++ t)%string with ("chat" ++ String "|" t)%string.
    unfold from_str. rewrite split_arg_first_bar by reflexivity.
    rewrite kind_from_str_chat. reflexivity.
  - intros v p Hv.
    change ("steps|" ++ v ++ "|" ++ p)%string
      with ("steps" ++ String "|" (v ++ String "|" p))%string.
    unfold from_str. rewrite split_arg_first_bar by reflexivity.
    rewrite kind_from_str_steps. cbv iota beta.
    rewrite (split_arg_first_bar v p Hv). reflexivity.
  - intros v p Hv.
    change ("webrtc|" ++ v ++ "|" ++ p)%string
      with ("webrtc" ++ String "|" (v ++ String "|" p))%string.
    unfold from_str. rewrite split_arg_first_bar by reflexivity.
    rewrite kind_from_str_webrtc. cbv iota beta.
    rewrite (split_arg_first_bar v p Hv). reflexivity.
Qed.

Lemma split_rule_chat_steps_webrtc_witness :
  RustStr.find "|" "42" = None /\
  from_str ("steps|" ++ "42" ++ "|" ++ "[a|b]") = inr (Steps 42 "[a|b]").
Proof.
  split; [reflexivity|].
  pose proof (proj1 (proj2 (proj2 (proj2 split_rule_chat_steps_webrtc))) "42" "[a|b]")
    as H.
  rewrite H by reflexivity. reflexivity.
Defined.

End CommandClaims.

Module SessionClaims.
Import Command Session.

Definition verbs : list string := ["init"; "chat"; "steps"; "update"; "webrtc"].

Lemma kind_from_str_unknown (s : string) :
  s ∉ verbs -> kind_from_str s = inl (UnknownCommand s).
Proof.
  intros Hs. unfold kind_from_str.
  destruct (String.eqb_spec s "init"); [subst; set_solver|].
  destruct (String.eqb_spec s "chat"); [subst; set_solver|].
  destruct (String.eqb_spec s "steps"); [subst; set_solver|].
  destruct (String.eqb_spec s "update"); [subst; set_solver|].
  destruct (String.eqb_spec s "webrtc"); [subst; set_solver|].
  reflexivity.
Qed.

Lemma kind_from_str_known (s : string) :
  s ∈ verbs -> exists k, kind_from_str s = inr k.
Proof.
  unfold verbs. rewrite !elem_of_cons, elem_of_nil.
  intros [->|[->|[->|[->|[->|[]]]]]]; eexists; reflexivity.
Qed.

Lemma from_str_never_close (input : string) : from_str input <> inr Command.Close.
Proof.
  unfold from_str. destruct (split_arg input) as [cmd arg].
  destruct (kind_from_str cmd) as [e|[]]; repeat case_match; discriminate.
Qed.

Ltac in_inv :=
repeat match goal with
       | H : _ \/ _ |- _ => destruct H
       | H : False |- _ => destruct H
       end; simplify_eq.
Section SessionProps.
Context {Step Json : Type}.
Variable parse_update : string -> option Channel.UserConfig.
Variable parse_json : string -> option Json.
Variable parse_steps : string -> option (list Step).
Variable ser_json : Json -> string.
Variable ser_cfg : Channel.UserConfig -> string.
Variable ser_batches : list (@Channel.StepBatch Step) -> string.

Lemma handle_command_no_close env id c effs r (rq : @Channel.Request Step Json) :
  c <> inr Command.Close ->
  handle_command parse_update parse_json parse_steps env id c = (effs, r) ->
  In (SRequest rq) effs -> Channel.kind rq <> Channel.RClose.
Proof.
  intros Hc Hh Hin Hk.
  destruct env as [[] [] ir q]; destruct c as [e|[| | | | |]];
    unfold handle_command, ws_send, req_send in Hh; simpl in Hh;
    repeat (case_match; simplify_eq/=); simplify_eq/=;
    repeat match goal with H : _ \/ _ |- _ => destruct H end; simplify_eq/=;
    try congruence.
Qed.

Lemma session_close_sources env id ev effs r (rq : @Channel.Request Step Json) :
  session_step parse_update parse_json parse_steps ser_json ser_cfg ser_batches env id ev
    = (effs, r) ->
  In (SRequest rq) effs -> Channel.kind rq = Channel.RClose ->
  ev = EvMessage Close \/ ev = EvStreamError \/ ev = EvStreamEnd \/
  (exists p, ev = EvMessage (Ping p) /\ ws_ok env = false) \/
  (exists m, ev = EvTick m /\ ws_ok env = false).
Proof.
  intros Hs Hin Hk.
  destruct ev as [[t|b|p|p|]| | |mi|ob|os]; cbn delta [session_step] iota beta in Hs.
  - unfold handle_message in Hs.
    destruct (handle_command parse_update parse_json parse_steps env id (Command.from_str t))
      as [e0 r0] eqn:Hh.
    exfalso. eapply (handle_command_no_close env id (Command.from_str t) e0 r0 rq);
      [apply from_str_never_close|exact Hh| |exact Hk].
    destruct r0 as [[]|]; simplify_eq; [|exact Hin].
    apply in_app_iff in Hin. destruct Hin as [Hin|[Hin|[]]]; [exact Hin|discriminate].
  - exfalso. unfold handle_message, ws_send in Hs.
    destruct (ws_ok env); cbn beta iota in Hs; simplify_eq; cbn [In app] in Hin; in_inv.
  - unfold handle_message, ws_send in Hs. destruct (ws_ok env) eqn:Ew; cbn beta iota in Hs; simplify_eq.
    + exfalso. cbn [In app] in Hin; in_inv.
    + right; right; right; left. eauto.
  - exfalso. unfold handle_message in Hs. cbn beta iota in Hs; simplify_eq. cbn [In app] in Hin; in_inv.
  - auto.
  - auto.
  - auto.
  - unfold ws_send in Hs. destruct (ws_ok env) eqn:Ew; cbn beta iota in Hs; simplify_eq.
    + exfalso. cbn [In app] in Hin; in_inv.
    + right; right; right; right. eauto.
  - exfalso. destruct ob as [[[]|b]|]; unfold ws_send in Hs;
      try destruct (ws_ok env); cbn beta iota in Hs; simplify_eq; cbn [In app] in Hin; in_inv.
  - exfalso. destruct os as [sg|]; unfold ws_send in Hs;
      try destruct (ws_ok env); cbn beta iota in Hs; simplify_eq; cbn [In app] in Hin; in_inv.
Qed.


Lemma parse_error_step env id t e :
  Command.from_str t = inl e ->
  session_step parse_update parse_json parse_steps ser_json ser_cfg ser_batches env id
    (EvMessage (Text t)) =
  if ws_ok env
  then ([SSend (Text ("error|" ++ Command.error_display e)%string)], Continue)
  else ([SLog], Break).
Proof.
  intros He. unfold session_step, handle_message, handle_command. rewrite He.
  unfold ws_send. destruct (ws_ok env); reflexivity.
Qed.

(** C10: the parser knows exactly the verbs [init], [chat], [steps],
    [update] and [webrtc]; any other first token (["close"] included) is
    an [UnknownCommand]; no text frame parses to [Command::Close]; and a
    [Close] request leaves the session only for a close frame, an error or
    the end of the WebSocket stream, or a failed pong or ping write. *)
Theorem close_verb_unknown_close_from_session :
  (forall s : string, s ∉ verbs -> Command.kind_from_str s = inl (Command.UnknownCommand s)) /\
  (forall s : string, s ∈ verbs -> exists k, Command.kind_from_str s = inr k) /\
  (forall input : string, (Command.split_arg input).1 ∉ verbs ->
     Command.from_str input = inl (Command.UnknownCommand (Command.split_arg input).1)) /\
  (forall input : string, Command.from_str input <> inr Command.Close) /\
  (forall env id ev effs r (rq : @Channel.Request Step Json),
     session_step parse_update parse_json parse_steps ser_json ser_cfg ser_batches env id ev
       = (effs, r) ->
     In (SRequest rq) effs -> Channel.kind rq = Channel.RClose ->
     ev = EvMessage Close \/ ev = EvStreamError \/ ev = EvStreamEnd \/
     (exists p, ev = EvMessage (Ping p) /\ ws_ok env = false) \/
     (exists m, ev = EvTick m /\ ws_ok env = false)).
Proof.
  split; [exact kind_from_str_unknown|].
  split; [exact kind_from_str_known|].
  split; [|split; [exact from_str_never_close|exact session_close_sources]].
  intros input Hv. unfold Command.from_str.
  destruct (Command.split_arg input) as [cmd arg]. simpl in Hv |- *.
  rewrite (kind_from_str_unknown cmd Hv). reflexivity.
Qed.

(** C9 (as the code behaves): a text frame that does not parse is
    answered with ["error|<message>"] and sends nothing to the channel;
    the loop goes on when that frame is written, and ends when writing
    it fails. *)
Theorem parse_error_reply_continue_if_written :
  forall env id t e,
    Command.from_str t = inl e ->
    let '(effs, r) :=
      session_step parse_update parse_json parse_steps ser_json ser_cfg ser_batches env id
        (EvMessage (Text t)) in
    (forall rq : @Channel.Request Step Json, ~ In (SRequest rq) effs) /\
    (ws_ok env = true ->
       effs = [SSend (Text ("error|" ++ Command.error_display e)%string)] /\ r = Continue) /\
    (ws_ok env = false -> r = Break).
Proof.
  intros env id t e He. rewrite (parse_error_step env id t e He).
  destruct (ws_ok env).
  - split; [|split; [intros _; split; reflexivity|discriminate]].
    intros rq Hin. cbn [In] in Hin. in_inv.
  - split; [|split; [discriminate|reflexivity]].
    intros rq Hin. cbn [In] in Hin. in_inv.
Qed.

End SessionProps.

(** Concrete instances of the serde hooks for the witnesses. *)
Definition no_cfg (_ : string) : option Channel.UserConfig := None.
Definition no_json (_ : string) : option unit := None.
Definition no_steps (_ : string) : option (list unit) := None.
Definition show_unit (_ : unit) : string := "null".
Definition show_cfg (_ : Channel.UserConfig) : string := "{}".
Definition show_batches (_ : list (@Channel.StepBatch unit)) : string := "[]".
Definition env_down : Env := mkEnv false true None 0.

Definition ping0 : @Event unit unit := EvMessage (Ping []).

Lemma close_verb_unknown_close_from_session_witness :
  session_step no_cfg no_json no_steps show_unit show_cfg show_batches env_down 3
    ping0 = ([SLog; SRequest (Channel.mkRequest 3 Channel.RClose); SLog], Break) /\
  (ping0 = EvMessage Close \/ ping0 = EvStreamError \/
   ping0 = EvStreamEnd \/
   (exists p, ping0 = EvMessage (Ping p) /\ ws_ok env_down = false) \/
   (exists m, ping0 = EvTick m /\ ws_ok env_down = false)).
Proof.
  split; [reflexivity|].
  refine (proj2 (proj2 (proj2 (proj2 (@close_verb_unknown_close_from_session unit unit
            no_cfg no_json no_steps show_unit show_cfg show_batches))))
            env_down 3 ping0 _ Break (Channel.mkRequest 3 Channel.RClose)
            _ _ _); [reflexivity| right; left; reflexivity| reflexivity].
Defined.

Lemma parse_error_reply_continue_if_written_witness :
  Command.from_str "close" = inl (Command.UnknownCommand "close") /\
  let '(effs, r) :=
    session_step no_cfg no_json no_steps show_unit show_cfg show_batches env_down 0
      (EvMessage (Text "close")) in
  (forall rq : @Channel.Request unit unit, ~ In (SRequest rq) effs) /\
  (ws_ok env_down = true ->
     effs = [SSend (Text ("error|" ++ Command.error_display
                                       (Command.UnknownCommand "close"))%string)] /\
     r = Continue) /\
  (ws_ok env_down = false -> r = Break).
Proof.
  split; [reflexivity|].
  exact (@parse_error_reply_continue_if_written unit unit
            no_cfg no_json no_steps show_unit show_cfg show_batches
            env_down 0 "close" (Command.UnknownCommand "close") eq_refl).
Defined.

(** C9 as stated fails: when the ["error|..."] frame cannot be written,
    the session loop ends on the unparsable frame ["close"]. *)
Lemma parse_error_terminates_session :
  snd (session_step no_cfg no_json no_steps show_unit show_cfg show_batches env_down 0
         (EvMessage (Text "close"))) = Break.
Proof. reflexivity. Qed.

End SessionClaims.

(* ------------------------------------------------------------------ *)
(** ** The folder resolver *)

Module FolderClaims.
Import FolderResolver.
Local Arguments Ascii.eqb : simpl never.

Lemma split_nonempty (c : ascii) (s : string) : RustStr.split c s <> [].
Proof.
  destruct s as [|d r]; simpl; [discriminate|].
  destruct (Ascii.eqb c d); [discriminate|]. destruct (RustStr.split c r); discriminate.
Qed.

Lemma split_head_not_empty (d : ascii) (r : string) :
  d <> "/"%char ->
  exists h t, RustStr.split "/" (String d r) = String d h :: t.
Proof.
  intros Hd. simpl. rewrite (proj2 (Ascii.eqb_neq "/" d)) by congruence.
  destruct (RustStr.split "/" r) as [|h t]; eauto.
Qed.

Lemma split_slash (r : string) :
  RustStr.split "/" (String "/" r) = EmptyString :: RustStr.split "/" r.
Proof. reflexivity. Qed.

(** The walk of [check_name_iter]: all pieces but the last go through the
    subfolder maps, the last one decides between folder and file. *)
Lemma check_name_iter_walk (iter : list string) :
  forall (f : Folder) (curr : string) (b : PathBuf),
    match walk f (removelast (curr :: iter)) with
    | None => check_name_iter f iter curr b = Invalid
    | Some f' => exists b',
        check_name_iter f iter curr b =
        if String.eqb (List.last (curr :: iter) "") "" then FolderV f' b'
        else File f' b' (List.last (curr :: iter) "")
    end.
Proof.
  induction iter as [|next iter IH]; intros f curr b.
  - simpl. eexists. reflexivity.
  - change (removelast (curr :: next :: iter)) with (curr :: removelast (next :: iter)).
    change (List.last (curr :: next :: iter) "") with (List.last (next :: iter) "").
    simpl walk. simpl check_name_iter.
    destruct (sub_get curr (sub f)) as [g|]; [|reflexivity].
    apply IH.
Qed.

(** C7: [check_name] is [Invalid] for a path that does not start with
    ['/'] and for a path one of whose non-final segments is missing from
    the subfolder map along the walk; otherwise it is [Folder] when the
    final segment is empty and [File] carrying the final segment. *)
Theorem check_name_classification (f : Folder) (b : PathBuf) :
  (forall p : string, String.prefix "/" p = false -> check_name f p b = Invalid) /\
  (forall r : string,
     walk f (removelast (RustStr.split "/" r)) = None ->
     check_name f (String "/" r) b = Invalid) /\
  (forall (r : string) (f' : Folder),
     walk f (removelast (RustStr.split "/" r)) = Some f' ->
     exists b',
       check_name f (String "/" r) b =
       if String.eqb (List.last (RustStr.split "/" r) "") "" then FolderV f' b'
       else File f' b' (List.last (RustStr.split "/" r) "")).
Proof.
  split; [|split].
  - intros [|d r] Hp; [reflexivity|].
    assert (Hd : d <> "/"%char).
    { intros ->. simpl in Hp. destruct r; discriminate Hp. }
    destruct (split_head_not_empty d r Hd) as (h & t & E).
    unfold check_name. rewrite E. reflexivity.
  - intros r Hw. unfold check_name. rewrite split_slash.
    pose proof (split_nonempty "/" r) as Hne.
    destruct (RustStr.split "/" r) as [|curr iter]; [congruence|].
    pose proof (check_name_iter_walk iter f curr b) as H. rewrite Hw in H. exact H.
  - intros r f' Hw. unfold check_name. rewrite split_slash.
    pose proof (split_nonempty "/" r) as Hne.
    destruct (RustStr.split "/" r) as [|curr iter]; [congruence|].
    pose proof (check_name_iter_walk iter f curr b) as H. rewrite Hw in H. exact H.
Qed.

(** A configuration with one subfolder [room]. *)
Definition cfg_root : Folder :=
  mkFolder (Some ["pads"]) [] [("room", mkFolder None [] [])].

Lemma check_name_classification_witness :
  walk cfg_root (removelast (RustStr.split "/" "room/pad")) = Some (mkFolder None [] []) /\
  exists b',
    check_name cfg_root "/room/pad" [] = File (mkFolder None [] []) b' "pad".
Proof.
  split; [reflexivity|].
  exact (proj2 (proj2 (check_name_classification cfg_root [])) "room/pad"
           (mkFolder None [] []) eq_refl).
Defined.

End FolderClaims.

(* ------------------------------------------------------------------ *)
(** ** The lobby *)

Module LobbyClaims.
Import Lobby.

(** Channel [c] is registered under [p] with reference count [n]. *)
Definition live (s : LobbyState) (p : string) (c : N) (n : N) : Prop :=
  channel_names s !! p = Some c /\
  exists ch, channels s !! c = Some ch /\ count ch = n /\ path ch = p.

Fixpoint joins (evs : list LobbyEvent) : N :=
  match evs with
  | [] => 0
  | EvJoin _ :: evs' => 1 + joins evs'
  | EvEnd _ :: evs' => joins evs'
  end.

Fixpoint ends (evs : list LobbyEvent) : N :=
  match evs with
  | [] => 0
  | EvJoin _ :: evs' => ends evs'
  | EvEnd _ :: evs' => 1 + ends evs'
  end.

Lemma join_live s p c n :
  live s p c n -> n + 1 < WORD ->
  exists s' effs, handle_join_request s p = Some (s', effs) /\ live s' p c (n + 1).
Proof.
  intros [Hn (ch & Hc & Hcnt & Hp)] Hb.
  unfold handle_join_request. rewrite Hn, Hc. simpl.
  do 2 eexists. split; [reflexivity|]. split; [exact Hn|].
  eexists. simpl. rewrite lookup_insert_eq. split; [reflexivity|]. simpl.
  unfold add64. rewrite N.mod_small by lia. split; [lia|exact Hp].
Qed.

Lemma end_live_more s p c n :
  live s p c n -> 1 < n ->
  let '(s', l, effs) := handle_end s c in l = Continue /\ effs = [] /\ live s' p c (n - 1).
Proof.
  intros [Hn (ch & Hc & Hcnt & Hp)] H1.
  unfold handle_end. rewrite Hc.
  destruct (N.ltb_spec (count ch) 1); [lia|].
  destruct (N.eqb_spec (count ch) 1); [lia|].
  split; [reflexivity|]. split; [reflexivity|]. split; [exact Hn|].
  eexists. simpl. rewrite lookup_insert_eq. split; [reflexivity|]. simpl. split; [lia|exact Hp].
Qed.

Lemma end_live_last s p c :
  live s p c 1 ->
  let '(s', l, effs) := handle_end s c in
  l = Continue /\ effs = [Terminate c] /\
  channels s' !! c = None /\ channel_names s' !! p = None.
Proof.
  intros [Hn (ch & Hc & Hcnt & Hp)].
  unfold handle_end. rewrite Hc, Hcnt. simpl.
  split; [reflexivity|]. split; [reflexivity|].
  rewrite Hp. split; apply lookup_delete_eq.
Qed.

Lemma join_create s p comps file :
  channel_names s !! p = None -> check_name p = File comps file ->
  exists s' effs, handle_join_request s p = Some (s', effs) /\ live s' p (next_cid s) 1.
Proof.
  intros Hn Hf. unfold handle_join_request. rewrite Hn, Hf. simpl.
  do 2 eexists. split; [reflexivity|]. split; [apply lookup_insert_eq|].
  eexists. split; [apply lookup_insert_eq|]. split; reflexivity.
Qed.

Lemma run_live evs :
  forall s p c n,
    Forall (fun e => e = EvJoin p \/ e = EvEnd c) evs ->
    live s p c n ->
    (forall k, ends (take k evs) < n + joins (take k evs)) ->
    n + joins evs < WORD ->
    exists s', run s evs = Some s' /\ live s' p c (n + joins evs - ends evs).
Proof.
  induction evs as [|e evs IH]; intros s p c n Hall Hl Hpre Hb.
  - exists s. simpl. split; [reflexivity|]. replace (n + 0 - 0) with n by lia. exact Hl.
  - inversion Hall as [|? ? He Hall']; subst.
    destruct He as [->| ->].
    + destruct (join_live s p c n Hl) as (s1 & effs & Hj & Hl1); [simpl in Hb; lia|].
      destruct (IH s1 p c (n + 1) Hall' Hl1) as (s2 & Hr & Hl2).
      * intros k. specialize (Hpre (S k)). simpl in Hpre. lia.
      * simpl in Hb. lia.
      * exists s2. simpl. rewrite Hj. split; [exact Hr|].
        replace (n + (1 + joins evs) - ends evs) with (n + 1 + joins evs - ends evs) by lia.
        exact Hl2.
    + assert (H1 : 1 < n) by (specialize (Hpre 1%nat); simpl in Hpre; lia).
      pose proof (end_live_more s p c n Hl H1) as He.
      destruct (handle_end s c) as [[s1 l] effs] eqn:Hend.
      destruct He as (-> & -> & Hl1).
      destruct (IH s1 p c (n - 1) Hall' Hl1) as (s2 & Hr & Hl2).
      * intros k. specialize (Hpre (S k)). simpl in Hpre. lia.
      * simpl in Hb. lia.
      * exists s2. simpl. rewrite Hend. split; [exact Hr|].
        assert (Hall_k := Hpre (S (length evs))). simpl in Hall_k.
        rewrite take_ge in Hall_k by lia.
        replace (n + joins evs - (1 + ends evs)) with (n - 1 + joins evs - ends evs) by lia.
        exact Hl2.
Qed.

(** C3: from the join that creates the channel of [p], along any
    interleaving of joins of [p] and end notifications of its channel in
    which the channel stays in use, the entry's count is the number of
    joins minus the number of ends; an end on count 1 removes the entry
    and the path mapping and fires the termination; an end on a larger
    count only decrements it. *)
Theorem refcount_joins_minus_ends :
  (forall (s : LobbyState) (p : string) (comps : list string) (file : string)
          (evs : list LobbyEvent),
     channel_names s !! p = None -> check_name p = File comps file ->
     Forall (fun e => e = EvJoin p \/ e = EvEnd (next_cid s)) evs ->
     (forall k, ends (take k evs) <= joins (take k evs)) ->
     1 + joins evs < WORD ->
     exists s', run s (EvJoin p :: evs) = Some s' /\
                live s' p (next_cid s) (1 + joins evs - ends evs)) /\
  (forall s p c, live s p c 1 ->
     let '(s', l, effs) := handle_end s c in
     l = Continue /\ effs = [Terminate c] /\
     channels s' !! c = None /\ channel_names s' !! p = None) /\
  (forall s p c n, live s p c n -> 1 < n ->
     let '(s', l, effs) := handle_end s c in
     l = Continue /\ effs = [] /\ live s' p c (n - 1)).
Proof.
  split; [|split; [exact end_live_last|exact end_live_more]].
  intros s p comps file evs Hn Hf Hall Hpre Hb.
  destruct (join_create s p comps file Hn Hf) as (s1 & effs & Hj & Hl1).
  destruct (run_live evs s1 p (next_cid s) 1 Hall Hl1) as (s2 & Hr & Hl2).
  - intros k. specialize (Hpre k). lia.
  - exact Hb.
  - exists s2. simpl. rewrite Hj. split; [exact Hr|exact Hl2].
Qed.

Lemma refcount_joins_minus_ends_witness :
  exists s', run empty_lobby [EvJoin "/pad"; EvJoin "/pad"; EvEnd 0] = Some s' /\
             live s' "/pad" 0 1.
Proof.
  refine (proj1 refcount_joins_minus_ends empty_lobby "/pad" [] "pad"
            [EvJoin "/pad"; EvEnd 0] _ _ _ _ _).
  - reflexivity.
  - reflexivity.
  - constructor; [left; reflexivity|constructor; [right; reflexivity|constructor]].
  - intros [|[|[|k]]]; simpl; lia.
  - reflexivity.
Defined.

End LobbyClaims.

Module LobbyInvariant.
Import Lobby.

(** The registry is consistent: every registered path names a channel
    kept under that path, every channel is registered under its path, and
    every channel id is below the next one to hand out. *)
Definition lobby_ok (s : LobbyState) : Prop :=
  (forall p c, channel_names s !! p = Some c ->
     exists ch, channels s !! c = Some ch /\ path ch = p) /\
  (forall c ch, channels s !! c = Some ch ->
     channel_names s !! path ch = Some c /\ c < next_cid s) /\
  next_cid s < WORD.

Lemma lobby_ok_empty : lobby_ok empty_lobby.
Proof.
  split; [|split]; simpl.
  - intros p c H. rewrite lookup_empty in H. discriminate.
  - intros c ch H. rewrite lookup_empty in H. discriminate.
  - unfold WORD. lia.
Qed.

Lemma join_preserves (s : LobbyState) (p : string) :
  lobby_ok s -> next_cid s + 1 < WORD ->
  exists s' effs, handle_join_request s p = Some (s', effs) /\ lobby_ok s' /\
                  next_cid s' <= next_cid s + 1.
Proof.
  intros (Hn & Hc & Hw) Hw1. unfold handle_join_request.
  destruct (channel_names s !! p) as [c|] eqn:Ep.
  - destruct (Hn p c Ep) as (ch & Ech & Hpath). rewrite Ech. simpl.
    eexists _, _. split; [reflexivity|]. split; [|simpl; lia].
    split; [|split]; simpl.
    + intros p' c' H'. destruct (Hn p' c' H') as (ch' & Ech' & Hp').
      destruct (decide (c' = c)) as [->|Hne].
      * rewrite lookup_insert_eq. eexists. split; [reflexivity|]. simpl.
        rewrite Ech in Ech'. simplify_eq. reflexivity.
      * rewrite lookup_insert_ne by congruence. eauto.
    + intros c' ch' H'. destruct (decide (c' = c)) as [->|Hne].
      * rewrite lookup_insert_eq in H'. simplify_eq. simpl. apply Hc in Ech. exact Ech.
      * rewrite lookup_insert_ne in H' by congruence. apply Hc in H'. exact H'.
    + exact Hw.
  - destruct (check_name p); simpl;
      try (eexists _, _; split; [reflexivity|]; split; [split; [exact Hn|split; [exact Hc|exact Hw]]|lia]).
    eexists _, _. split; [reflexivity|].
    assert (Hadd : add64 (next_cid s) 1 = next_cid s + 1)
      by (unfold add64; apply N.mod_small; lia).
    split; [|simpl; rewrite Hadd; lia].
    split; [|split]; simpl; rewrite ?Hadd.
    + intros p' c' H'. destruct (decide (p' = p)) as [->|Hne].
      * rewrite lookup_insert_eq in H'. simplify_eq.
        rewrite lookup_insert_eq. eexists. split; reflexivity.
      * rewrite lookup_insert_ne in H' by congruence.
        destruct (Hn p' c' H') as (ch' & Ech' & Hp').
        assert (c' < next_cid s) by (apply (Hc c' ch' Ech')).
        rewrite lookup_insert_ne by lia. eauto.
    + intros c' ch' H'. destruct (decide (c' = next_cid s)) as [->|Hne].
      * rewrite lookup_insert_eq in H'. simplify_eq. simpl.
        rewrite lookup_insert_eq. split; [reflexivity|lia].
      * rewrite lookup_insert_ne in H' by congruence.
        destruct (Hc c' ch' H') as [Hp' Hlt].
        assert (path ch' <> p) by (intros <-; congruence).
        rewrite lookup_insert_ne by congruence. split; [exact Hp'|lia].
    + lia.
Qed.

Lemma end_preserves (s : LobbyState) (c : N) s' effs :
  lobby_ok s -> handle_end s c = (s', Continue, effs) -> lobby_ok s'.
Proof.
  intros (Hn & Hc & Hw) He. unfold handle_end in He.
  destruct (channels s !! c) as [ch|] eqn:Ech; [|discriminate].
  destruct (count ch <? 1); [discriminate|].
  destruct (count ch =? 1); simplify_eq.
  - split; [|split]; simpl.
    + intros p' c' H'. destruct (decide (p' = path ch)) as [->|Hne].
      * rewrite lookup_delete_eq in H'. discriminate.
      * rewrite lookup_delete_ne in H' by congruence.
        destruct (Hn p' c' H') as (ch' & Ech' & Hp').
        assert (c' <> c) by (intros ->; rewrite Ech in Ech'; simplify_eq; congruence).
        rewrite lookup_delete_ne by congruence. eauto.
    + intros c' ch' H'. destruct (decide (c' = c)) as [->|Hne].
      * rewrite lookup_delete_eq in H'. discriminate.
      * rewrite lookup_delete_ne in H' by congruence.
        destruct (Hc c' ch' H') as [Hp' Hlt].
        assert (path ch' <> path ch).
        { intros Heq. destruct (Hc c ch Ech) as [Hp _]. congruence. }
        rewrite lookup_delete_ne by congruence. split; [exact Hp'|exact Hlt].
    + exact Hw.
  - split; [|split]; simpl.
    + intros p' c' H'. destruct (Hn p' c' H') as (ch' & Ech' & Hp').
      destruct (decide (c' = c)) as [->|Hne].
      * rewrite lookup_insert_eq. eexists. split; [reflexivity|]. simpl.
        rewrite Ech in Ech'. simplify_eq. reflexivity.
      * rewrite lookup_insert_ne by congruence. eauto.
    + intros c' ch' H'. destruct (decide (c' = c)) as [->|Hne].
      * rewrite lookup_insert_eq in H'. simplify_eq. simpl. apply Hc in Ech. exact Ech.
      * rewrite lookup_insert_ne in H' by congruence. apply Hc in H'. exact H'.
    + exact Hw.
Qed.

Lemma end_next_cid (s : LobbyState) (c : N) s' l effs :
  handle_end s c = (s', l, effs) -> next_cid s' = next_cid s.
Proof.
  unfold handle_end. destruct (channels s !! c) as [ch|]; [|intros [= <- _ _]; reflexivity].
  destruct (count ch <? 1); [intros [= <- _ _]; reflexivity|].
  destruct (count ch =? 1); intros [= <- _ _]; reflexivity.
Qed.

(** The lobby loop keeps the registry consistent, while channel ids do
    not run out: at most one id is handed out per event. *)
Lemma run_preserves (evs : list LobbyEvent) :
  forall s s', lobby_ok s -> next_cid s + N.of_nat (length evs) < WORD ->
  run s evs = Some s' -> lobby_ok s'.
Proof.
  induction evs as [|[p|c] evs IH]; intros s s' Hok Hw Hr; cbn [run length] in Hr, Hw.
  - congruence.
  - destruct (join_preserves s p Hok ltac:(lia)) as (s1 & e1 & Hj & Hok1 & Hn1).
    rewrite Hj in Hr. apply (IH s1 s' Hok1); [lia|exact Hr].
  - destruct (handle_end s c) as [[s1 l] e1] eqn:He. destruct l; [discriminate|].
    pose proof (end_next_cid s c s1 Continue e1 He) as Hn1.
    apply (IH s1 s' (end_preserves s c s1 e1 Hok He)); [lia|exact Hr].
Qed.

(** In a consistent registry a channel id is registered under one path
    only. *)
Lemma lobby_ok_names_inj (s : LobbyState) (p1 p2 : string) (c : N) :
  lobby_ok s -> channel_names s !! p1 = Some c -> channel_names s !! p2 = Some c -> p1 = p2.
Proof.
  intros (Hn & _ & _) H1 H2.
  destruct (Hn p1 c H1) as (ch1 & E1 & P1). destruct (Hn p2 c H2) as (ch2 & E2 & P2).
  rewrite E1 in E2. simplify_eq. reflexivity.
Qed.

End LobbyInvariant.

Module ChannelKeyClaims.
Import Lobby.

(** The claim's slug collision: ["/My Pad"] and ["/my-pad"] both name the
    file [my-pad], yet the lobby opens two channels for them. *)
Lemma slug_collision_two_channels :
  exists s', run empty_lobby [EvJoin "/My Pad"; EvJoin "/my-pad"] = Some s' /\
             channel_names s' !! "/My Pad" = Some 0 /\
             channel_names s' !! "/my-pad" = Some 1.
Proof. eexists. split; [reflexivity|]. split; vm_compute; reflexivity. Qed.

Lemma add64_succ_neq (c : N) : c < WORD -> add64 c 1 <> c.
Proof.
  intros Hc. unfold add64.
  destruct (N.ltb_spec (c + 1) WORD).
  - rewrite N.mod_small by lia. lia.
  - assert (c + 1 = WORD) as -> by lia. rewrite N.Div0.mod_same.
    intros Hz. subst. unfold WORD in *. lia.
Qed.

(** C6 (as the code behaves): the lobby keys channels on the request path
    itself: a join of a path registered in [channel_names] attaches to
    that channel, a join of an unregistered file path opens a new channel
    under the next channel id, and in every registry the lobby loop
    reaches from the empty one (while channel ids do not run out) two
    different path strings never share a channel; in particular two
    unregistered paths joined one after the other get two channels. *)
Theorem channel_key_is_raw_path :
  (forall (s : LobbyState) (p : string) (c : N) (ch : LobbyChannel),
     channel_names s !! p = Some c -> channels s !! c = Some ch ->
     exists s' id, handle_join_request s p = Some (s', [Reply (inr (mkJoinResponse id c))])) /\
  (forall (s : LobbyState) (p : string) comps file,
     channel_names s !! p = None -> check_name p = File comps file ->
     exists s' id, handle_join_request s p =
       Some (s', [Spawn (next_cid s) p; Reply (inr (mkJoinResponse id (next_cid s)))])) /\
  (forall (evs : list LobbyEvent) (s : LobbyState) (p1 p2 : string) (c1 c2 : N),
     N.of_nat (length evs) < WORD -> run empty_lobby evs = Some s ->
     p1 <> p2 -> channel_names s !! p1 = Some c1 -> channel_names s !! p2 = Some c2 ->
     c1 <> c2) /\
  (forall (s : LobbyState) (p1 p2 : string) comps1 file1 comps2 file2,
     p1 <> p2 -> channel_names s !! p1 = None -> channel_names s !! p2 = None ->
     check_name p1 = File comps1 file1 -> check_name p2 = File comps2 file2 ->
     next_cid s < WORD ->
     exists s' c1 c2, run s [EvJoin p1; EvJoin p2] = Some s' /\
       channel_names s' !! p1 = Some c1 /\ channel_names s' !! p2 = Some c2 /\ c1 <> c2).
Proof.
  split; [|split; [|split]].
  - intros s p c ch Hn Hc. unfold handle_join_request. rewrite Hn, Hc. simpl. eauto.
  - intros s p comps file Hn Hf. unfold handle_join_request. rewrite Hn, Hf. simpl. eauto.
  - intros evs s p1 p2 c1 c2 Hl Hr Hne H1 H2 Heq. subst c2.
    assert (Hok : LobbyInvariant.lobby_ok s).
    { apply (LobbyInvariant.run_preserves evs empty_lobby s LobbyInvariant.lobby_ok_empty);
        [simpl; exact Hl|exact Hr]. }
    exact (Hne (LobbyInvariant.lobby_ok_names_inj s p1 p2 c1 Hok H1 H2)).
  - intros s p1 p2 comps1 file1 comps2 file2 Hne Hn1 Hn2 Hf1 Hf2 Hw.
    simpl. unfold handle_join_request at 1. rewrite Hn1, Hf1. simpl.
    unfold handle_join_request. simpl.
    rewrite lookup_insert_ne by congruence. rewrite Hn2, Hf2. simpl.
    exists (mkLobbyState (add64 (add64 (next_cid s) 1) 1)
         (<[add64 (next_cid s) 1 := mkLobbyChannel (add64 0 1) 1 p2]>
            (<[next_cid s := mkLobbyChannel (add64 0 1) 1 p1]> (channels s)))
         (<[p2 := add64 (next_cid s) 1]> (<[p1 := next_cid s]> (channel_names s)))).
    exists (next_cid s), (add64 (next_cid s) 1).
    split; [reflexivity|]. simpl.
    rewrite lookup_insert_ne by congruence. rewrite lookup_insert_eq.
    split; [reflexivity|]. rewrite lookup_insert_eq. split; [reflexivity|].
    intros H. apply (add64_succ_neq (next_cid s) Hw). symmetry. exact H.
Qed.

Lemma channel_key_is_raw_path_witness :
  exists s', run empty_lobby [EvJoin "/My Pad"; EvJoin "/my-pad"] = Some s' /\
    channel_names s' !! "/My Pad" = Some 0 /\ channel_names s' !! "/my-pad" = Some 1 /\
    0 <> 1.
Proof.
  eexists. split; [reflexivity|].
  assert (H1 : channel_names (mkLobbyState 2
              (<[1 := mkLobbyChannel 1 1 "/my-pad"]> (<[0 := mkLobbyChannel 1 1 "/My Pad"]> ∅))
              (<[("/my-pad")%string := 1]> (<[("/My Pad")%string := 0]> ∅))) !! "/My Pad" = Some 0)
    by reflexivity.
  assert (H2 : channel_names (mkLobbyState 2
              (<[1 := mkLobbyChannel 1 1 "/my-pad"]> (<[0 := mkLobbyChannel 1 1 "/My Pad"]> ∅))
              (<[("/my-pad")%string := 1]> (<[("/My Pad")%string := 0]> ∅))) !! "/my-pad" = Some 1)
    by reflexivity.
  assert (Hl : N.of_nat (length [EvJoin "/My Pad"; EvJoin "/my-pad"]) < WORD) by reflexivity.
  assert (Hr : run empty_lobby [EvJoin "/My Pad"; EvJoin "/my-pad"] =
               Some (mkLobbyState 2
              (<[1 := mkLobbyChannel 1 1 "/my-pad"]> (<[0 := mkLobbyChannel 1 1 "/My Pad"]> ∅))
              (<[("/my-pad")%string := 1]> (<[("/My Pad")%string := 0]> ∅)))) by reflexivity.
  assert (Hne : ("/My Pad")%string <> ("/my-pad")%string) by discriminate.
  pose proof (proj1 (proj2 (proj2 channel_key_is_raw_path))
                [EvJoin "/My Pad"; EvJoin "/my-pad"] _ "/My Pad" "/my-pad" 0 1 Hl Hr Hne H1 H2) as H.
  split; [exact H1|]. split; [exact H2|]. exact H.
Defined.

End ChannelKeyClaims.

Module ChannelClaims.
Import Channel.

Section ChannelProps.
Context {Node Step StepError Json : Type}.
Variable step_apply : Step -> Node -> StepError + Node.
Variable ser_doc_state : @DocState Node -> string.
Variable ser_public : PublicMemberData -> string.
Variable ser_peers : gmap N PublicMemberData -> string.

Local Abbreviation hr := (@handle_request Node Step StepError Json step_apply ser_doc_state ser_public ser_peers).
Local Abbreviation run_reqs := (@run Node Step StepError Json step_apply ser_doc_state ser_public ser_peers).

Definition is_log (e : @Effect Step) : Prop := exists l, e = ELog l.

(** The number of steps carried by the [Steps] broadcasts of a trace of
    effects: the batches the actor has accepted. *)
Definition batch_len (bs : list (@StepBatch Step)) : N :=
  foldr (fun b acc => N.of_nat (length (steps b)) + acc) 0 bs.
Definition accepted_len (effs : list (@Effect Step)) : N :=
  foldr (fun e acc => match e with EBroadcast (BSteps bs) => batch_len bs + acc | _ => acc end)
    0 effs.

Lemma accepted_len_app (a b : list (@Effect Step)) :
  accepted_len (a ++ b) = accepted_len a + accepted_len b.
Proof. induction a as [|e a IH]; simpl; [lia|]. destruct e as [| [] | |]; rewrite IH; lia. Qed.

Lemma step_version (self_id : N) (st : @ChannelState Node) w r :
  version (doc_state st) < WORD ->
  match hr self_id st w r with
  | Done st' _ effs | Blocked st' _ effs =>
      version (doc_state st') = (version (doc_state st) + accepted_len effs) mod WORD
  | Panic effs => accepted_len effs = 0
  end.
Proof.
  intros Hv. destruct r as [id k].
  assert (Hid : version (doc_state st) = (version (doc_state st) + 0) mod WORD)
    by (rewrite N.add_0_r, N.mod_small; lia).
  destruct k as [text|v stps|ro nm q|sig|cfg|]; unfold handle_request, bct_send; simpl.
  - destruct (0 <? receivers w)%nat; first [exact Hid | reflexivity].
  - destruct (v =? version (doc_state st)); [|exact Hid].
    destruct stps as [|s rest]; [exact Hid|].
    destruct (apply_steps step_apply _ s rest); [exact Hid|].
    destruct (0 <? receivers w)%nat; simpl; [|reflexivity].
    unfold add64. rewrite N.add_0_r. reflexivity.
  - destruct ro; [destruct (0 <? receivers w)%nat|]; simpl; first [exact Hid | reflexivity].
  - destruct (member_data st !! reciever sig); [|reflexivity].
    destruct (queues w !! sig_tx u) as [q|]; [|exact Hid].
    destruct (sq_open q); [|exact Hid].
    destruct (length (sq_buf q) <? SIG_CAPACITY)%nat; exact Hid.
  - destruct (member_data st !! id); [|reflexivity].
    destruct (0 <? receivers w)%nat; destruct (cfg_name cfg); exact Hid.
  - destruct (0 <? receivers w)%nat; destruct (lobby_open w);
      [destruct (end_len w <? END_CAPACITY)%nat|..|destruct (end_len w <? END_CAPACITY)%nat|];
      simpl; exact Hid.
Qed.

Lemma run_version self_id st w reqs st' w' effs :
  run_reqs self_id st w reqs = (st', w', effs) ->
  version (doc_state st) < WORD ->
  version (doc_state st') = (version (doc_state st) + accepted_len effs) mod WORD.
Proof.
  revert st w st' w' effs. induction reqs as [|r reqs IH]; intros st w st' w' effs Hr Hv.
  - simpl in Hr. simplify_eq. simpl. rewrite N.add_0_r, N.mod_small; lia.
  - simpl in Hr. pose proof (step_version self_id st w r Hv) as Hs.
    destruct (hr self_id st w r) as [st1 w1 e1|e1|st1 w1 e1] eqn:E.
    + destruct (run_reqs self_id st1 w1 reqs) as [[st2 w2] e2] eqn:E2. simplify_eq.
      assert (Hv1 : version (doc_state st1) < WORD) by (rewrite Hs; apply N.mod_lt; unfold WORD; lia).
      rewrite (IH _ _ _ _ _ E2 Hv1), Hs, accepted_len_app.
      rewrite N.Div0.add_mod_idemp_l. f_equal. lia.
    + simplify_eq. rewrite Hs, N.add_0_r, N.mod_small; lia.
    + simplify_eq. exact Hs.
Qed.

(** C1: a [Steps] request whose declared version is not the current one,
    whose batch is empty, or whose batch fails to apply, leaves the
    channel state (document and version) and the world unchanged and
    has no effect but log lines: no [Steps] broadcast. *)
Theorem steps_rejected_unchanged (self_id : N) (c_state : @ChannelState Node) w
    (id v : N) (stps : list Step) :
  (v <> version (doc_state c_state) \/ stps = [] \/
   exists first rest e, stps = first :: rest /\
     apply_steps step_apply (doc (doc_state c_state)) first rest = inl e) ->
  exists effs, hr self_id c_state w (mkRequest id (RSteps v stps)) = Done c_state w effs /\
               Forall is_log effs.
Proof.
  intros Hcase. unfold handle_request. simpl.
  destruct (N.eqb_spec v (version (doc_state c_state))) as [Heq|Hne].
  - destruct Hcase as [Hne|[->|(first & rest & e & -> & Ha)]]; [congruence| |].
    + eexists. split; [reflexivity|]. repeat constructor; eexists; reflexivity.
    + rewrite Ha. eexists. split; [reflexivity|]. repeat constructor; eexists; reflexivity.
  - eexists. split; [reflexivity|]. repeat constructor; eexists; reflexivity.
Qed.

(** C2: a document loaded or created starts at version 0, and after any
    sequence of requests the version is the start version plus the
    number of steps in the accepted batches (those the actor broadcast),
    counted modulo 2^64 as the [u64] addition does; from a fresh channel
    whose accepted steps number less than 2^64 it is exactly that number. *)
Theorem version_counts_accepted_steps :
  (forall d : Node, version (doc_state (@ChannelState_new Node (DocState_new d))) = 0) /\
  (forall self_id st w reqs st' w' effs,
     run_reqs self_id st w reqs = (st', w', effs) ->
     version (doc_state st) < WORD ->
     version (doc_state st') = (version (doc_state st) + accepted_len effs) mod WORD) /\
  (forall self_id d w reqs st' w' effs,
     run_reqs self_id (ChannelState_new (DocState_new d)) w reqs = (st', w', effs) ->
     accepted_len effs < WORD ->
     version (doc_state st') = accepted_len effs).
Proof.
  split; [reflexivity|]. split; [exact run_version|].
  intros self_id d w reqs st' w' effs Hr Hlt.
  rewrite (run_version _ _ _ _ _ _ _ Hr) by (simpl; unfold WORD; lia).
  simpl. apply N.mod_small. exact Hlt.
Qed.

(** C4 (divergence): a [Signal] to an id outside the roster, or an
    [Update] from one, makes the actor panic on its [unwrap]; a [Signal]
    to a member whose open queue holds [SIG_CAPACITY] signals suspends
    the actor in its [.await] instead of dropping the signal. *)
Theorem roster_miss_panics_full_queue_blocks :
  (forall self_id (c_state : @ChannelState Node) w id sig,
     member_data c_state !! reciever sig = None ->
     hr self_id c_state w (mkRequest id (RSignal sig)) = Panic []) /\
  (forall self_id (c_state : @ChannelState Node) w id cfg,
     member_data c_state !! id = None ->
     hr self_id c_state w (mkRequest id (RUpdate cfg)) = Panic []) /\
  (forall self_id (c_state : @ChannelState Node) w id sig m q,
     member_data c_state !! reciever sig = Some m -> queues w !! sig_tx m = Some q ->
     sq_open q = true -> length (sq_buf q) = SIG_CAPACITY ->
     hr self_id c_state w (mkRequest id (RSignal sig)) = Blocked c_state w [ELog Trace]).
Proof.
  split; [|split].
  - intros self_id c_state w id sig H. unfold handle_request. simpl. rewrite H. reflexivity.
  - intros self_id c_state w id cfg H. unfold handle_request. simpl. rewrite H. reflexivity.
  - intros self_id c_state w id sig m q Hm Hq Ho Hl. unfold handle_request. simpl.
    rewrite Hm, Hq, Ho, Hl. reflexivity.
Qed.

(** C5: an [Init] request records the member under its id with the
    supplied name, or ["Bear #<id>"], and audio off; a live one-shot gets
    the serialized document state and the serialized public roster, in
    which the new member appears; the [NewUser] broadcast is sent exactly
    when the one-shot reply went through (with the requesting session
    subscribed, a live one-shot means a broadcast receiver). *)
Theorem init_member_reply_newuser (self_id : N) (c_state : @ChannelState Node) w
    (id : N) (response_open : bool) (nm : option string) (q : N) :
  (response_open = true -> (0 < receivers w)%nat) ->
  let new_name := default (default_name id) nm in
  exists st' effs,
    hr self_id c_state w (mkRequest id (RInit response_open nm q)) = Done st' w effs /\
    member_data st' !! id = Some (mkUserData new_name false q) /\
    doc_state st' = doc_state c_state /\
    (response_open = true ->
     (public <$> member_data st') !! id = Some (mkPublic new_name false) /\
     In (EReply (mkInitReply (ser_doc_state (doc_state c_state))
                             (ser_peers (public <$> member_data st')))) effs) /\
    ((exists d, In (EBroadcast (BNewUser id d)) effs) <-> response_open = true).
Proof.
  intros Hrecv new_name. unfold handle_request, bct_send. simpl.
  destruct response_open.
  - rewrite (proj2 (Nat.ltb_lt 0 (receivers w)) (Hrecv eq_refl)).
    eexists _, _. split; [reflexivity|]. simpl.
    rewrite lookup_insert_eq. split; [destruct nm; reflexivity|].
    split; [reflexivity|]. split.
    + intros _. rewrite lookup_fmap, lookup_insert_eq. split; [destruct nm; reflexivity|].
      left. reflexivity.
    + split; [intros _; reflexivity|]. intros _. eexists. right; right; left. reflexivity.
  - eexists _, _. split; [reflexivity|]. simpl.
    rewrite lookup_insert_eq. split; [destruct nm; reflexivity|].
    split; [reflexivity|]. split; [discriminate|].
    split; [intros [d [H|[]]]; discriminate|discriminate].
Qed.

End ChannelProps.

(** A concrete actor: numbers for nodes and steps, a step adds itself. *)
Definition nat_apply (s d : nat) : unit + nat := inr (d + s)%nat.
Definition no_ser {A : Type} (_ : A) : string := "".
Definition cs0 : @ChannelState nat := ChannelState_new (DocState_new 0%nat).
Definition w0 : @World unit := mkWorld ∅ 1 true 0.
Local Abbreviation hr0 := (@handle_request nat nat unit unit nat_apply no_ser no_ser no_ser).
Local Abbreviation run0 := (@run nat nat unit unit nat_apply no_ser no_ser no_ser).
Definition steps_reqs : list (@Request nat unit) :=
  [mkRequest 0 (RSteps 0 [1%nat; 2%nat]); mkRequest 1 (RSteps 5 [7%nat]);
   mkRequest 1 (RSteps 2 [3%nat])].

Lemma steps_rejected_unchanged_witness :
  exists effs, hr0 7 cs0 w0 (mkRequest 0 (RSteps 1 [4%nat])) = Done cs0 w0 effs /\
               Forall is_log effs.
Proof.
  assert (Hn : 1 <> version (doc_state cs0)) by discriminate.
  pose proof (steps_rejected_unchanged nat_apply no_ser no_ser no_ser 7 cs0 w0 0 1 [4%nat]
                (or_introl Hn)) as H.
  exact H.
Defined.

Lemma version_counts_accepted_steps_witness :
  version (doc_state (fst (fst (run0 7 cs0 w0 steps_reqs)))) =
  accepted_len (snd (run0 7 cs0 w0 steps_reqs)).
Proof.
  assert (Hl : accepted_len (snd (run0 7 cs0 w0 steps_reqs)) < WORD)
    by (vm_compute; reflexivity).
  destruct (run0 7 cs0 w0 steps_reqs) as [[st' w'] effs] eqn:E.
  exact (proj2 (proj2 (version_counts_accepted_steps nat_apply no_ser no_ser no_ser))
           7 0%nat w0 steps_reqs st' w' effs E Hl).
Defined.

Lemma roster_miss_panics_full_queue_blocks_witness :
  hr0 7 cs0 w0 (mkRequest 0 (RSignal (mkSignal 0 999 tt))) = Panic [].
Proof.
  assert (Hm : member_data cs0 !! reciever (mkSignal 0 999 tt) = None) by reflexivity.
  pose proof (proj1 (roster_miss_panics_full_queue_blocks nat_apply no_ser no_ser no_ser)
                7 cs0 w0 0 (mkSignal 0 999 tt) Hm) as H.
  exact H.
Defined.

Lemma init_member_reply_newuser_witness :
  exists st' effs,
    hr0 7 cs0 w0 (mkRequest 3 (RInit true None 3)) = Done st' w0 effs /\
    member_data st' !! 3 = Some (mkUserData (default (default_name 3) None) false 3) /\
    doc_state st' = doc_state cs0 /\
    (true = true ->
     (public <$> member_data st') !! 3 = Some (mkPublic (default (default_name 3) None) false) /\
     In (EReply (mkInitReply (no_ser (doc_state cs0)) (no_ser (public <$> member_data st')))) effs) /\
    ((exists d, In (EBroadcast (BNewUser 3 d)) effs) <-> true = true).
Proof.
  assert (Hr : true = true -> (0 < receivers w0)%nat) by (intros _; simpl; lia).
  pose proof (init_member_reply_newuser nat_apply no_ser no_ser no_ser 7 cs0 w0 3 true None 3 Hr)
    as H.
  exact H.
Defined.

End ChannelClaims.

Module CodecFacts.
Import Command CommandFacts.
Local Arguments Ascii.eqb : simpl never.

Lemma pretty_N_char_val (d : N) :
  d < 10 -> N.of_nat (nat_of_ascii (pretty_N_char d)) = 48 + d.
Proof.
  intros Hd.
  assert (d = 0 \/ d = 1 \/ d = 2 \/ d = 3 \/ d = 4 \/ d = 5 \/ d = 6 \/ d = 7 \/ d = 8 \/ d = 9)
    as Hc by lia.
  repeat destruct Hc as [->|Hc]; try reflexivity. subst. reflexivity.
Qed.

Lemma digits_value_digit (acc d : N) (s : string) :
  d < 10 ->
  RustStr.digits_value acc (String (pretty_N_char d) s) =
  if acc * 10 + d <? WORD then RustStr.digits_value (acc * 10 + d) s else None.
Proof.
  intros Hd. cbn [RustStr.digits_value]. rewrite (pretty_N_char_val d Hd).
  replace ((48 <=? 48 + d) && (48 + d <=? 57)) with true
    by (symmetry; apply andb_true_iff; split; apply N.leb_le; lia).
  replace (48 + d - 48) with d by lia. reflexivity.
Qed.

Lemma digits_value_pretty_go (x : N) :
  x < WORD -> forall s, RustStr.digits_value 0 (pretty_N_go x s) = RustStr.digits_value x s.
Proof.
  induction (N.lt_wf_0 x) as [x _ IH]; intros Hx s.
  destruct (N.eq_dec x 0) as [->|Hne]; [reflexivity|].
  rewrite pretty_N_go_step by lia.
  rewrite IH; [| apply N.div_lt; lia | apply (N.le_lt_trans _ x); [apply N.Div0.div_le_upper_bound; lia|exact Hx]].
  rewrite digits_value_digit by (apply N.mod_lt; lia).
  rewrite N.mul_comm, <- N.div_mod by lia.
  apply N.ltb_lt in Hx. rewrite Hx. reflexivity.
Qed.

Lemma pretty_go_head (x : N) :
  0 < x -> forall s, exists d r, pretty_N_go x s = String (pretty_N_char d) r /\ d < 10.
Proof.
  induction (N.lt_wf_0 x) as [x _ IH]; intros Hx s.
  rewrite pretty_N_go_step by lia.
  destruct (N.eq_dec (x / 10) 0) as [E|E].
  - rewrite E. exists (x mod 10), s. split; [reflexivity|]. apply N.mod_lt. lia.
  - apply IH; [apply N.div_lt; lia | destruct (x / 10); [congruence|reflexivity]].
Qed.

(** [parse::<u64>] reads back the decimal rendering the server prints
    ([format!("{}", id)]) of every 64-bit number. *)
Theorem parse_u64_pretty (n : N) : n < WORD -> RustStr.parse_u64 (pretty n) = Some n.
Proof.
  intros Hn. unfold pretty, pretty_N.
  destruct (decide (n = 0)) as [->|Hne]; [reflexivity|].
  assert (Hpos : 0 < n) by (destruct n; [congruence|reflexivity]).
  destruct (pretty_go_head n Hpos "") as (d & r & Hpr & Hd).
  pose proof (digits_value_pretty_go n Hn "") as Hv. rewrite Hpr in *.
  assert (Hdig : RustStr.parse_u64 (String (pretty_N_char d) r) =
                 RustStr.digits_value 0 (String (pretty_N_char d) r)).
  { assert (d = 0 \/ d = 1 \/ d = 2 \/ d = 3 \/ d = 4 \/ d = 5 \/ d = 6 \/ d = 7 \/ d = 8 \/ d = 9)
      as Hc by lia.
    repeat destruct Hc as [->|Hc]; try reflexivity; subst; reflexivity. }
  rewrite Hdig, Hv. simpl. apply N.ltb_lt in Hn. reflexivity.
Qed.

Lemma pretty_char_not_bar (d : N) : d < 10 -> Ascii.eqb "|" (pretty_N_char d) = false.
Proof.
  intros Hd.
  assert (d = 0 \/ d = 1 \/ d = 2 \/ d = 3 \/ d = 4 \/ d = 5 \/ d = 6 \/ d = 7 \/ d = 8 \/ d = 9)
    as Hc by lia.
  repeat destruct Hc as [->|Hc]; try reflexivity; subst; reflexivity.
Qed.

Lemma find_bar_pretty_go (x : N) :
  forall s, RustStr.find "|" s = None -> RustStr.find "|" (pretty_N_go x s) = None.
Proof.
  induction (N.lt_wf_0 x) as [x _ IH]; intros s Hs.
  destruct (N.eq_dec x 0) as [->|Hne]; [exact Hs|].
  rewrite pretty_N_go_step by lia. apply IH; [apply N.div_lt; lia|].
  simpl. rewrite pretty_char_not_bar by (apply N.mod_lt; lia). rewrite Hs. reflexivity.
Qed.

Lemma find_bar_pretty (n : N) : RustStr.find "|" (pretty n) = None.
Proof.
  unfold pretty, pretty_N. destruct (decide (n = 0)); [reflexivity|].
  apply find_bar_pretty_go. reflexivity.
Qed.

(** The text commands read back their payload verbatim, ['|'] included:
    [chat], [update] and [init] cut at the first ['|'] only. *)
Theorem from_str_text_round_trip (m : string) :
  from_str ("chat|" ++ m) = inr (Chat m) /\
  from_str ("update|" ++ m) = inr (Update m) /\
  from_str ("init|" ++ m) = inr (Init (Some m)) /\
  from_str "init" = inr (Init None).
Proof.
  unfold from_str.
  change ("chat|" ++ m)%string with ("chat" ++ String "|" m)%string.
  change ("update|" ++ m)%string with ("update" ++ String "|" m)%string.
  change ("init|" ++ m)%string with ("init" ++ String "|" m)%string.
  rewrite !split_arg_first_bar by reflexivity.
  repeat split; reflexivity.
Qed.

(** The numbered commands: for every 64-bit receiver or version [n] and
    every payload [m], ["webrtc|<n>|<m>"] and ["steps|<n>|<m>"] parse back
    to [n] and [m]. *)
Theorem from_str_numbered_round_trip (n : N) (m : string) :
  n < WORD ->
  from_str ("webrtc|" ++ pretty n ++ "|" ++ m) = inr (WebRTC n m) /\
  from_str ("steps|" ++ pretty n ++ "|" ++ m) = inr (Steps n m).
Proof.
  intros Hn. unfold from_str.
  change ("webrtc|" ++ pretty n ++ "|" ++ m)%string
    with ("webrtc" ++ String "|" (pretty n ++ String "|" m))%string.
  change ("steps|" ++ pretty n ++ "|" ++ m)%string
    with ("steps" ++ String "|" (pretty n ++ String "|" m))%string.
  rewrite (split_arg_first_bar "webrtc"), (split_arg_first_bar "steps") by reflexivity.
  change (kind_from_str "webrtc") with (@inr ParseCommandError _ KWebRTC).
  change (kind_from_str "steps") with (@inr ParseCommandError _ KSteps).
  cbv iota beta.
  rewrite (split_arg_first_bar (pretty n) m (find_bar_pretty n)).
  rewrite (parse_u64_pretty n Hn). split; reflexivity.
Qed.

(** A frame whose text before the first ['|'] is not a verb is refused with
    that text, whatever follows; a verb that needs an argument and has no
    ['|'] is refused as a missing argument, and so are [steps] and
    [webrtc] frames without a second ['|'] or whose number does not parse. *)
Theorem from_str_errors (h r : string) :
  RustStr.find "|" h = None ->
  (kind_from_str h = inl (UnknownCommand h) ->
     from_str (h ++ String "|" r) = inl (UnknownCommand h) /\ from_str h = inl (UnknownCommand h)) /\
  from_str "chat" = inl (MissingArg KChat) /\ from_str "update" = inl (MissingArg KUpdate) /\
  from_str "steps" = inl (MissingArg KSteps) /\ from_str "webrtc" = inl (MissingArg KWebRTC) /\
  from_str ("steps|" ++ h) = inl (MissingArg KSteps) /\
  from_str ("webrtc|" ++ h) = inl (MissingArg KWebRTC) /\
  (RustStr.parse_u64 h = None ->
     from_str ("steps|" ++ h ++ "|" ++ r) = inl (MissingArg KSteps) /\
     from_str ("webrtc|" ++ h ++ "|" ++ r) = inl (MissingArg KWebRTC)).
Proof.
  intros Hh. split.
  - intros Hk. unfold from_str. rewrite (split_arg_first_bar h r Hh), (split_arg_no_bar h Hh).
    rewrite Hk. split; reflexivity.
  - do 4 (split; [reflexivity|]).
    unfold from_str.
    change ("steps|" ++ h)%string with ("steps" ++ String "|" h)%string.
    change ("webrtc|" ++ h)%string with ("webrtc" ++ String "|" h)%string.
    change ("steps|" ++ h ++ "|" ++ r)%string with ("steps" ++ String "|" (h ++ String "|" r))%string.
    change ("webrtc|" ++ h ++ "|" ++ r)%string
      with ("webrtc" ++ String "|" (h ++ String "|" r))%string.
    rewrite !(split_arg_first_bar "webrtc"), !(split_arg_first_bar "steps") by reflexivity.
    change (kind_from_str "webrtc") with (@inr ParseCommandError _ KWebRTC).
    change (kind_from_str "steps") with (@inr ParseCommandError _ KSteps).
    cbv iota beta. rewrite (split_arg_no_bar h Hh), (split_arg_first_bar h r Hh).
    split; [reflexivity|]. split; [reflexivity|].
    intros Hp. rewrite Hp. split; reflexivity.
Qed.

(** Concrete instances of the hypotheses above. *)

Lemma parse_u64_pretty_witness : RustStr.parse_u64 (pretty 1234) = Some 1234.
Proof.
  assert (Hn : 1234 < WORD) by reflexivity.
  pose proof (parse_u64_pretty 1234 Hn) as H.
  exact H.
Defined.

Lemma from_str_numbered_round_trip_witness :
  from_str ("webrtc|" ++ pretty 7 ++ "|" ++ "offer") = inr (WebRTC 7 "offer") /\
  from_str ("steps|" ++ pretty 7 ++ "|" ++ "[]") = inr (Steps 7 "[]").
Proof.
  assert (Hn : 7 < WORD) by reflexivity.
  pose proof (from_str_numbered_round_trip 7 "offer" Hn) as H1.
  pose proof (from_str_numbered_round_trip 7 "[]" Hn) as H2.
  exact (conj (proj1 H1) (proj2 H2)).
Defined.

Lemma from_str_errors_witness :
  from_str ("steps|" ++ "x1" ++ "|" ++ "[]") = inl (MissingArg KSteps).
Proof.
  assert (Hf : RustStr.find "|" "x1" = None) by reflexivity.
  assert (Hp : RustStr.parse_u64 "x1" = None) by reflexivity.
  pose proof (from_str_errors "x1" "[]" Hf) as H.
  destruct H as [_ [_ [_ [_ [_ [_ [_ H8]]]]]]].
  exact (proj1 (H8 Hp)).
Defined.

End CodecFacts.

Module PathFacts.
Import Lobby.
Local Arguments Ascii.eqb : simpl never.

Lemma concat_cons_char (sep : string) (d : ascii) (h : string) (t : list string) :
  String.concat sep (String d h :: t) = String d (String.concat sep (h :: t)).
Proof. destruct t; reflexivity. Qed.

(** [split(c)] loses nothing: joining its pieces with [c] gives the input
    back. *)
Theorem split_concat (c : ascii) (s : string) :
  String.concat (String c EmptyString) (RustStr.split c s) = s.
Proof.
  induction s as [|d r IH]; [reflexivity|]. simpl.
  destruct (Ascii.eqb c d) eqn:E.
  - apply Ascii.eqb_eq in E. subst d.
    destruct (RustStr.split c r) as [|h t] eqn:Es;
      [destruct (FolderClaims.split_nonempty c r Es)|].
    simpl. rewrite <- IH. reflexivity.
  - destruct (RustStr.split c r) as [|h t] eqn:Es;
      [destruct (FolderClaims.split_nonempty c r Es)|].
    rewrite concat_cons_char, IH. reflexivity.
Qed.

Lemma split_no_sep (c : ascii) (x : string) :
  RustStr.find c x = None -> RustStr.split c x = [x].
Proof.
  induction x as [|d r IH]; [reflexivity|]. simpl. intros H.
  destruct (Ascii.eqb c d); [discriminate|].
  destruct (RustStr.find c r); [discriminate|]. rewrite IH by reflexivity. reflexivity.
Qed.

Lemma split_app_sep (c : ascii) (x rest : string) :
  RustStr.find c x = None ->
  RustStr.split c (x ++ String c rest) = x :: RustStr.split c rest.
Proof.
  induction x as [|d r IH]; simpl; intros H.
  - rewrite Ascii.eqb_refl. reflexivity.
  - destruct (Ascii.eqb c d); [discriminate|].
    destruct (RustStr.find c r); [discriminate|]. rewrite IH by reflexivity. reflexivity.
Qed.

(** Conversely, pieces without [c] joined with [c] split back into the
    same pieces. *)
Theorem concat_split (c : ascii) (l : list string) :
  l <> [] -> Forall (fun x => RustStr.find c x = None) l ->
  RustStr.split c (String.concat (String c EmptyString) l) = l.
Proof.
  induction l as [|x l IH]; intros Hne Hall; [congruence|].
  apply Forall_cons in Hall as [Hx Hl].
  destruct l as [|y l].
  - simpl. apply split_no_sep, Hx.
  - change (String.concat (String c EmptyString) (x :: y :: l))
      with (x ++ String c (String.concat (String c EmptyString) (y :: l)))%string.
    rewrite split_app_sep by exact Hx. rewrite IH; [reflexivity|discriminate|exact Hl].
Qed.

Definition component_ok (c : string) : bool :=
  negb (String.eqb c "") && all_chars ascii_alnum_or_dash c.

(** The lobby's [check_name] on a path ["/c1/.../cn/last"] whose pieces
    hold no ['/']: a folder when [last] is empty, a file named [last]
    otherwise, provided every [ci] is a non-empty run of ASCII letters,
    digits and ['-']; a path that does not start with ['/'] is invalid. *)
Theorem lobby_check_name_shape (comps : list string) (last : string) :
  Forall (fun x => RustStr.find "/" x = None) (comps ++ [last]) ->
  check_name (String "/" (String.concat "/" (comps ++ [last]))) =
    (if forallb component_ok comps
     then if String.eqb last "" then Folder comps else File comps last
     else Invalid) /\
  (forall d r, d <> "/"%char -> check_name (String d r) = Invalid) /\
  check_name "" = Invalid.
Proof.
  intros Hall. split; [|split].
  - unfold check_name. rewrite FolderClaims.split_slash.
    rewrite concat_split by (try exact Hall; destruct comps; discriminate).
    rewrite rev_app_distr. simpl. rewrite rev_involutive. reflexivity.
  - intros d r Hd. unfold check_name.
    destruct (FolderClaims.split_head_not_empty d r Hd) as (h & t & ->). reflexivity.
  - reflexivity.
Qed.

(** Concrete instances of the hypotheses above. *)

Lemma concat_split_witness :
  RustStr.split "/" (String.concat (String "/" EmptyString) ["docs"; "a"]) = ["docs"; "a"].
Proof.
  assert (Hne : ["docs"; "a"] <> @nil string) by discriminate.
  assert (Hf : Forall (fun x => RustStr.find "/" x = None) ["docs"; "a"])
    by (repeat constructor).
  pose proof (concat_split "/" ["docs"; "a"] Hne Hf) as H.
  exact H.
Defined.

Lemma lobby_check_name_shape_witness :
  check_name (String "/" (String.concat "/" (["docs"] ++ ["a"]))) = File ["docs"] "a".
Proof.
  assert (Hf : Forall (fun x => RustStr.find "/" x = None) (["docs"] ++ ["a"]))
    by (repeat constructor).
  pose proof (proj1 (lobby_check_name_shape ["docs"] "a" Hf)) as H.
  exact H.
Defined.

End PathFacts.

Module SessionFacts.
Import Command Session.

(** The little-endian reading of a byte string. *)
Fixpoint le_value (bs : list Byte.byte) : N :=
  match bs with [] => 0 | b :: bs' => Byte.to_N b + 256 * le_value bs' end.

Lemma le_bytes_length (k : nat) (n : N) : length (le_bytes k n) = k.
Proof. revert n. induction k as [|k IH]; intros n; simpl; [reflexivity|]. now rewrite IH. Qed.

Lemma le_bytes_value (k : nat) (n : N) : le_value (le_bytes k n) = n mod 256 ^ N.of_nat k.
Proof.
  revert n. induction k as [|k IH]; intros n.
  - simpl. rewrite N.mod_1_r. reflexivity.
  - cbn [le_bytes le_value]. rewrite IH.
    destruct (Byte.of_N (n mod 256)) as [b|] eqn:Eb.
    + apply Byte.to_of_N in Eb. rewrite Eb.
      rewrite Nnat.Nat2N.inj_succ, N.pow_succ_r'.
      rewrite N.Div0.mod_mul_r. reflexivity.
    + apply Byte.of_N_None_iff in Eb. pose proof (N.mod_lt n 256 ltac:(lia)). lia.
Qed.

Section SessionProps.
Context {Step Json : Type}.
Variable parse_update : string -> option Channel.UserConfig.
Variable parse_json : string -> option Json.
Variable parse_steps : string -> option (list Step).
Variable ser_json : Json -> string.
Variable ser_cfg : Channel.UserConfig -> string.
Variable ser_batches : list (@Channel.StepBatch Step) -> string.

Local Abbreviation hc := (@handle_command Step Json parse_update parse_json parse_steps).
Local Abbreviation hm := (@handle_message Step Json parse_update parse_json parse_steps).
Local Abbreviation step :=
  (@session_step Step Json parse_update parse_json parse_steps ser_json ser_cfg ser_batches).

Lemma handle_command_ws_ok env id c :
  ws_ok env = true -> exists effs r, hc env id c = (effs, inr r).
Proof.
  intros Hw. destruct env as [wo co ir q]; simpl in Hw; subst wo.
  destruct c as [e|[| | | | |]]; unfold handle_command, ws_send, req_send; simpl;
    repeat (case_match; simplify_eq/=); eauto.
Qed.

(** [handle_message] drops the [CommandRes] of [handle_command]: while
    the socket takes writes, no text frame ends the session, not even one
    whose command breaks (an unparsable update, a closed channel queue). *)
Theorem text_frame_never_ends_session (env : Env) (id : N) (t : string) :
  ws_ok env = true ->
  snd (hm env id (Text t)) = inr Continue /\ snd (step env id (EvMessage (Text t))) = Continue.
Proof.
  intros Hw. destruct (handle_command_ws_ok env id (from_str t) Hw) as (effs & r & Hc).
  unfold session_step, handle_message. rewrite Hc. split; reflexivity.
Qed.

(** Control frames: a pong is ignored; while the socket takes writes a
    ping is answered by a pong with the same payload and a binary frame
    is echoed, without ending the session. When the write fails, both end
    the session: the failed pong reply after submitting a [Close] to the
    channel, the failed echo through [?] with only a log line, so the
    channel is not told. *)
Theorem control_frames_echo (env : Env) (id : N) (p : list Byte.byte) :
  step env id (EvMessage (Pong p)) = ([], Continue) /\
  (ws_ok env = true ->
   step env id (EvMessage (Ping p)) = ([SSend (Pong p)], Continue) /\
   step env id (EvMessage (Binary p)) = ([SSend (Binary p)], Continue)) /\
  (ws_ok env = false ->
   step env id (EvMessage (Ping p)) = (SLog :: submit_close env id, Break) /\
   step env id (EvMessage (Binary p)) = ([SLog], Break)).
Proof.
  unfold session_step, handle_message, ws_send. split; [reflexivity|].
  split; intros Hw; rewrite Hw; split; reflexivity.
Qed.

(** The heartbeat: each tick sends one ping whose payload is the 16
    little-endian bytes of the elapsed microseconds (modulo 2^128, the
    range of [u128]). *)
Theorem heartbeat_ping_payload (env : Env) (id micros : N) :
  ws_ok env = true ->
  exists bs, step env id (EvTick micros) = ([SSend (Ping bs)], Continue) /\
             length bs = 16%nat /\ le_value bs = micros mod 2 ^ 128.
Proof.
  intros Hw. exists (le_bytes 16 micros).
  split; [unfold session_step, ws_send; rewrite Hw; reflexivity|].
  split; [apply le_bytes_length|]. rewrite le_bytes_value. reflexivity.
Qed.

(** Broadcasts and directed signals never end the session and never send
    a request to the channel, whether or not the socket write succeeds. *)
Theorem outbound_events_keep_session (env : Env) (id : N)
    (b : option (unit + @Channel.Broadcast Step)) (s : option (@Channel.Signal Json)) :
  snd (step env id (EvBroadcast b)) = Continue /\
  snd (step env id (EvSignal s)) = Continue /\
  (forall rq, ~ In (SRequest rq) (fst (step env id (EvBroadcast b)))) /\
  (forall rq, ~ In (SRequest rq) (fst (step env id (EvSignal s)))).
Proof.
  unfold session_step, ws_send.
  destruct b as [[[]|bc]|]; destruct s as [sg|]; destruct (ws_ok env); cbn;
    repeat split; intros rq Hin; repeat (destruct Hin as [Hin|Hin]); try discriminate; exact Hin.
Qed.

(** The init handshake across the session and the channel: the session
    sends [Init] with its own signal queue; the channel records the member
    and answers; the session then writes ["init|<id>|<document>"] and
    ["peers|<roster>"], where the roster is the channel's roster with the
    new member in it. *)
Theorem init_handshake_frames {Node StepError : Type}
    (step_apply : Step -> Node -> StepError + Node)
    (ser_doc_state : @Channel.DocState Node -> string)
    (ser_public : Channel.PublicMemberData -> string)
    (ser_peers : gmap N Channel.PublicMemberData -> string)
    (self_id : N) (cst : @Channel.ChannelState Node) (w : @Channel.World Json)
    (env : Env) (id : N) (nm : option string) :
  chan_ok env = true -> ws_ok env = true -> (0 < Channel.receivers w)%nat ->
  let rq := Channel.mkRequest id (Channel.RInit true nm (own_queue env)) in
  exists st' effs r,
    Channel.handle_request step_apply ser_doc_state ser_public ser_peers self_id cst w rq
      = Channel.Done st' w effs /\
    In (Channel.EReply r) effs /\
    Channel.member_data st' !! id =
      Some (Channel.mkUserData (default (Channel.default_name id) nm) false (own_queue env)) /\
    (init_reply env = Some r ->
     hc env id (inr (Init nm)) =
       ([SRequest rq;
         SSend (Text ("init|" ++ pretty id ++ "|" ++ ser_doc_state (Channel.doc_state cst)));
         SSend (Text ("peers|" ++ ser_peers (Channel.public <$> Channel.member_data st')))],
        inr Continue)).
Proof.
  intros Hc Hw Hr rq. unfold Channel.handle_request, Channel.bct_send. simpl.
  rewrite (proj2 (Nat.ltb_lt 0 (Channel.receivers w)) Hr).
  eexists _, _, _. split; [reflexivity|]. split; [left; reflexivity|].
  split; [simpl; rewrite lookup_insert_eq; destruct nm; reflexivity|].
  intros Hi. unfold handle_command, req_send, ws_send. rewrite Hc, Hi, Hw. reflexivity.
Qed.

End SessionProps.
(** Concrete instances of the hypotheses above. *)

Definition env0 : Env := mkEnv true true None 0.
Local Abbreviation step0 :=
  (@session_step nat unit (fun _ => None) (fun _ => None) (fun _ => None)
     (fun _ => "") (fun _ => "") (fun _ => "")).

Lemma text_frame_never_ends_session_witness :
  snd (step0 env0 3 (EvMessage (Text "chat|hi"))) = Continue.
Proof.
  assert (Hw : ws_ok env0 = true) by reflexivity.
  pose proof (@text_frame_never_ends_session nat unit (fun _ => None) (fun _ => None) (fun _ => None)
                (fun _ => "") (fun _ => "") (fun _ => "") env0 3 "chat|hi" Hw) as H.
  exact (proj2 H).
Defined.

Lemma heartbeat_ping_payload_witness :
  exists bs, step0 env0 3 (EvTick 1000) = ([SSend (Ping bs)], Continue) /\ length bs = 16%nat.
Proof.
  assert (Hw : ws_ok env0 = true) by reflexivity.
  pose proof (@heartbeat_ping_payload nat unit (fun _ => None) (fun _ => None) (fun _ => None)
                (fun _ => "") (fun _ => "") (fun _ => "") env0 3 1000 Hw) as H.
  destruct H as [bs [H1 [H2 _]]].
  exists bs. exact (conj H1 H2).
Defined.

Definition doc_add (s d : nat) : unit + nat := inr (d + s)%nat.
Definition chan0 : @Channel.ChannelState nat := Channel.ChannelState_new (Channel.DocState_new 0%nat).
Definition world0 : @Channel.World unit := Channel.mkWorld ∅ 1 true 0.

Lemma init_handshake_frames_witness :
  exists st' effs r,
    @Channel.handle_request nat nat unit unit doc_add (fun _ => "") (fun _ => "") (fun _ => "")
      7 chan0 world0 (Channel.mkRequest 3 (Channel.RInit true None (own_queue env0)))
      = Channel.Done st' world0 effs /\
    In (Channel.EReply r) effs.
Proof.
  assert (Hc : chan_ok env0 = true) by reflexivity.
  assert (Hw : ws_ok env0 = true) by reflexivity.
  assert (Hr : (0 < Channel.receivers world0)%nat) by (cbn; lia).
  pose proof (@init_handshake_frames nat unit (fun _ => None) (fun _ => None) (fun _ => None)
                nat unit doc_add (fun _ => "") (fun _ => "") (fun _ => "")
                7 chan0 world0 env0 3 None Hc Hw Hr) as H.
  destruct H as [st' [effs [r [H1 [H2 _]]]]].
  exists st', effs, r. exact (conj H1 H2).
Defined.

End SessionFacts.

Module ChannelFacts.
Import Channel.

Section ChannelProps.
Context {Node Step StepError Json : Type}.
Variable step_apply : Step -> Node -> StepError + Node.
Variable ser_doc_state : @DocState Node -> string.
Variable ser_public : PublicMemberData -> string.
Variable ser_peers : gmap N PublicMemberData -> string.

Local Abbreviation hr := (@handle_request Node Step StepError Json step_apply ser_doc_state ser_public ser_peers).
Local Abbreviation run_reqs := (@run Node Step StepError Json step_apply ser_doc_state ser_public ser_peers).

Lemma apply_rest_app (d : Node) (xs ys : list Step) :
  apply_rest step_apply d (xs ++ ys) =
    match apply_rest step_apply d xs with
    | inl e => inl e
    | inr d' => apply_rest step_apply d' ys
    end.
Proof.
  revert d. induction xs as [|s xs IH]; intros d; [reflexivity|]. simpl.
  destruct (step_apply s d); [reflexivity|]. apply IH.
Qed.

Lemma add64_add64 (a n m : N) : add64 (add64 a n) m = add64 a (n + m).
Proof. unfold add64. rewrite N.Div0.add_mod_idemp_l. f_equal. lia. Qed.

(** Only a [Steps] request touches the document: every other request
    leaves the document state (document and version) as it was. *)
Theorem doc_only_changed_by_steps (self_id : N) (st : @ChannelState Node) w
    (r : @Request Step Json) :
  (forall v s, kind r <> RSteps v s) ->
  match hr self_id st w r with
  | Done st' _ _ | Blocked st' _ _ => doc_state st' = doc_state st
  | Panic _ => True
  end.
Proof.
  intros Hk. destruct r as [id k]. simpl in Hk.
  destruct k as [text|v stps|ro nm q|sig|cfg|]; unfold handle_request, bct_send; simpl;
    [|destruct (Hk v stps eq_refl)|..].
  - destruct (0 <? receivers w)%nat; reflexivity.
  - destruct ro; [destruct (0 <? receivers w)%nat|]; reflexivity.
  - destruct (member_data st !! reciever sig) as [u|]; [|exact I].
    destruct (queues w !! sig_tx u) as [q|]; [|reflexivity].
    destruct (sq_open q); [destruct (length (sq_buf q) <? SIG_CAPACITY)%nat|]; reflexivity.
  - destruct (member_data st !! id); [|exact I].
    destruct (0 <? receivers w)%nat; reflexivity.
  - destruct (0 <? receivers w)%nat, (lobby_open w);
      [destruct (end_len w <? END_CAPACITY)%nat|..|destruct (end_len w <? END_CAPACITY)%nat|];
      reflexivity.
Qed.

(** An [Update] from a member rewrites that member's record only: the
    name and the audio flag are replaced when the update carries them and
    kept otherwise, the signal queue is kept, every other member and the
    document are untouched, and the update is broadcast when there is a
    subscriber. *)
Theorem update_changes_supplied_fields (self_id : N) (st : @ChannelState Node) w
    (id : N) (cfg : UserConfig) (m : UserData) :
  member_data st !! id = Some m ->
  exists st' effs,
    hr self_id st w (mkRequest id (RUpdate cfg)) = Done st' w effs /\
    member_data st' = <[id := mkUserData (default (name m) (cfg_name cfg))
                                         (default (audio m) (cfg_audio cfg)) (sig_tx m)]>
                        (member_data st) /\
    doc_state st' = doc_state st /\
    (In (EBroadcast (BUpdate id cfg)) effs <-> (0 < receivers w)%nat).
Proof.
  intros Hm. destruct m as [mn ma mq]. unfold handle_request, bct_send. simpl. rewrite Hm.
  destruct (Nat.ltb_spec 0 (receivers w)) as [Hr|Hr];
    eexists _, _; (split; [reflexivity|]); simpl;
    (split; [destruct (cfg_name cfg), (cfg_audio cfg); reflexivity|]);
    (split; [reflexivity|]).
  - split; [|intros _; apply in_app_iff; right; left; reflexivity]. lia.
  - split; [|lia]. intros Hin. exfalso. apply in_app_iff in Hin.
    destruct (cfg_name cfg); simpl in Hin; repeat (destruct Hin as [Hin|Hin]; try discriminate); exact Hin.
Qed.

(** A [Close] removes the member from the roster and keeps the document
    in every case, before the channel reports its end to the lobby: with
    room in the lobby's end queue the report is queued and the request
    finishes; with the queue full the actor waits in the send, the report
    not yet made; with the lobby gone there is no report, only an error
    line. *)
Theorem close_removes_member (self_id : N) (st : @ChannelState Node) w (id : N) :
  let st' := mkChannelState (delete id (member_data st)) (doc_state st) in
  (lobby_open w = true -> (end_len w < END_CAPACITY)%nat ->
   exists effs, hr self_id st w (mkRequest id RClose) =
                  Done st' (mkWorld (queues w) (receivers w) true (S (end_len w))) effs /\
                In (EEnd self_id) effs) /\
  (lobby_open w = true -> (END_CAPACITY <= end_len w)%nat ->
   exists effs, hr self_id st w (mkRequest id RClose) = Blocked st' w effs /\
                ~ In (EEnd self_id) effs) /\
  (lobby_open w = false ->
   exists effs, hr self_id st w (mkRequest id RClose) = Done st' w effs /\
                ~ In (EEnd self_id) effs).
Proof.
  intros st'. unfold handle_request, bct_send. simpl.
  destruct (0 <? receivers w)%nat; simpl; split; [|split| |split].
  all: first [ intros Ho Hl; rewrite Ho, (proj2 (Nat.ltb_lt _ _) Hl)
             | intros Ho Hl; rewrite Ho, (proj2 (Nat.ltb_ge _ _) Hl)
             | intros Ho; rewrite Ho ].
  all: eexists; split; [reflexivity|]; simpl; intuition discriminate.
Qed.

(** Two accepted batches in a row build the same document as the one
    batch made of both: when the steps [x :: xs ++ y :: ys] apply to the
    current document, sending [x :: xs] at the current version and then
    [y :: ys] at the version that follows leaves the channel with the
    same document and version as sending them all at once. *)
Theorem steps_batches_compose (self_id a b : N) (st : @ChannelState Node) w
    (x y : Step) (xs ys : list Step) (d' : Node) :
  (0 < receivers w)%nat ->
  apply_rest step_apply (doc (doc_state st)) (x :: xs ++ y :: ys) = inr d' ->
  let v0 := version (doc_state st) in
  let ds' := mkDocState d' (add64 v0 (N.of_nat (length (x :: xs ++ y :: ys)))) in
  doc_state (fst (fst (run_reqs self_id st w
    [mkRequest a (RSteps v0 (x :: xs));
     mkRequest b (RSteps (add64 v0 (N.of_nat (length (x :: xs)))) (y :: ys))]))) = ds' /\
  doc_state (fst (fst (run_reqs self_id st w
    [mkRequest a (RSteps v0 (x :: xs ++ y :: ys))]))) = ds'.
Proof.
  intros Hr Hd v0 ds'.
  assert (Hd' := Hd). change (x :: xs ++ y :: ys) with ((x :: xs) ++ y :: ys) in Hd'.
  rewrite apply_rest_app in Hd'.
  destruct (apply_rest step_apply (doc (doc_state st)) (x :: xs)) as [e|d1] eqn:H1;
    [discriminate|].
  unfold run, handle_request, bct_send, apply_steps. simpl.
  rewrite (proj2 (Nat.ltb_lt _ _) Hr).
  rewrite N.eqb_refl. split.
  - change (match step_apply x (doc (doc_state st)) with
            | inl e => inl e | inr new_doc => apply_rest step_apply new_doc xs end)
      with (apply_rest step_apply (doc (doc_state st)) (x :: xs)).
    rewrite H1. simpl. rewrite N.eqb_refl.
    change (match step_apply y d1 with
            | inl e => inl e | inr new_doc => apply_rest step_apply new_doc ys end)
      with (apply_rest step_apply d1 (y :: ys)).
    rewrite Hd'. simpl. rewrite (proj2 (Nat.ltb_lt _ _) Hr). simpl.
    unfold ds', v0. rewrite add64_add64.
    assert (Hl : N.of_nat (S (length xs)) + N.of_nat (S (length ys)) =
                 N.of_nat (length (x :: xs ++ y :: ys)))
      by (simpl; rewrite length_app; simpl; lia).
    rewrite Hl. reflexivity.
  - change (match step_apply x (doc (doc_state st)) with
            | inl e => inl e | inr new_doc => apply_rest step_apply new_doc (xs ++ y :: ys) end)
      with (apply_rest step_apply (doc (doc_state st)) (x :: xs ++ y :: ys)).
    rewrite Hd. reflexivity.
Qed.

(** [Init] followed by [Close] for a user not yet in the roster leaves the
    roster and the document as they were. *)
Theorem init_then_close_restores_roster (self_id : N) (st : @ChannelState Node) w
    (id : N) (ro : bool) (nm : option string) (q : N) :
  member_data st !! id = None ->
  (ro = true -> (0 < receivers w)%nat) ->
  exists effs,
    run_reqs self_id st w [mkRequest id (RInit ro nm q); mkRequest id RClose] =
      (mkChannelState (member_data st) (doc_state st),
       if lobby_open w && (end_len w <? END_CAPACITY)%nat
       then mkWorld (queues w) (receivers w) true (S (end_len w)) else w,
       effs).
Proof.
  intros Hid Hr. unfold run, handle_request, bct_send. simpl.
  destruct (Nat.ltb_spec 0 (receivers w)) as [Hlt|Hge]; destruct ro; simpl;
    try (specialize (Hr eq_refl); lia);
    [rewrite (proj2 (Nat.ltb_lt _ _) Hlt)..|rewrite (proj2 (Nat.ltb_ge _ _) Hge)]; simpl;
    rewrite delete_insert_id by exact Hid;
    destruct (lobby_open w); [destruct (end_len w <? END_CAPACITY)%nat| |
                              destruct (end_len w <? END_CAPACITY)%nat| |
                              destruct (end_len w <? END_CAPACITY)%nat| ];
    simpl; eexists; reflexivity.
Qed.

(** Signals to one receiver are queued in the order they were requested:
    while the receiver's queue is open and has room, a run of [Signal]
    requests appends them to it, and the roster and document stay. *)
Theorem signals_delivered_in_order (self_id src : N) (st : @ChannelState Node)
    (rcv : N) (m : UserData) (sigs : list (@Signal Json)) :
  member_data st !! rcv = Some m ->
  Forall (fun s => reciever s = rcv) sigs ->
  forall (w : @World Json) buf,
    queues w !! sig_tx m = Some (mkSigQueue buf true) ->
    (length buf + length sigs <= SIG_CAPACITY)%nat ->
    exists w' effs,
      run_reqs self_id st w (map (fun s => mkRequest src (RSignal s)) sigs) = (st, w', effs) /\
      queues w' !! sig_tx m = Some (mkSigQueue (buf ++ sigs) true) /\
      (forall k, k <> sig_tx m -> queues w' !! k = queues w !! k).
Proof.
  intros Hm. induction sigs as [|s sigs IH]; intros Hall w buf Hq Hlen.
  - exists w, []. simpl. rewrite app_nil_r. auto.
  - apply Forall_cons in Hall as [Hs Hall].
    cbn [map run]. unfold handle_request at 1. simpl. rewrite Hs, Hm, Hq. simpl.
    rewrite (proj2 (Nat.ltb_lt _ _)) by (simpl in Hlen; lia).
    destruct (IH Hall (mkWorld (<[sig_tx m := mkSigQueue (buf ++ [s]) true]> (queues w))
                 (receivers w) (lobby_open w) (end_len w)) (buf ++ [s]))
      as (w' & effs & Hrun & Hq' & Hother).
    + simpl. apply lookup_insert_eq.
    + rewrite length_app. simpl in *. lia.
    + rewrite Hrun. eexists _, _. split; [reflexivity|].
      rewrite Hq', <- app_assoc. split; [reflexivity|].
      intros k Hk. rewrite Hother by exact Hk. simpl. apply lookup_insert_ne. congruence.
Qed.

End ChannelProps.
(** Concrete instances of the hypotheses above. *)

Definition nat_step (s d : nat) : unit + nat := inr (d + s)%nat.
Definition ch_st0 : @ChannelState nat := ChannelState_new (DocState_new 0%nat).
Definition ch_st1 : @ChannelState nat :=
  mkChannelState {[3 := mkUserData "ada" false 5]} (DocState_new 0%nat).
Definition ch_w0 : @World unit := mkWorld ∅ 1 true 0.
Definition ch_w1 : @World unit := mkWorld {[5 := mkSigQueue [] true]} 1 true 0.
Local Abbreviation hr0 := (@handle_request nat nat unit unit nat_step (fun _ => "") (fun _ => "") (fun _ => "")).
Local Abbreviation run0 := (@run nat nat unit unit nat_step (fun _ => "") (fun _ => "") (fun _ => "")).

Lemma doc_only_changed_by_steps_witness :
  match hr0 7 ch_st1 ch_w0 (mkRequest 3 (RChat "hi")) with
  | Done st' _ _ | Blocked st' _ _ => doc_state st' = doc_state ch_st1
  | Panic _ => True
  end.
Proof.
  assert (Hk : forall v s, kind (mkRequest 3 (RChat "hi")) <> @RSteps nat unit v s)
    by (intros v s; discriminate).
  pose proof (@doc_only_changed_by_steps nat nat unit unit nat_step (fun _ => "") (fun _ => "")
                (fun _ => "") 7 ch_st1 ch_w0 (mkRequest 3 (RChat "hi")) Hk) as H.
  exact H.
Defined.

Lemma update_changes_supplied_fields_witness :
  exists st' effs,
    hr0 7 ch_st1 ch_w0 (mkRequest 3 (RUpdate (mkUserConfig (Some "bob") None))) = Done st' ch_w0 effs /\
    member_data st' = {[3 := mkUserData "bob" false 5]}.
Proof.
  assert (Hm : member_data ch_st1 !! 3 = Some (mkUserData "ada" false 5)) by reflexivity.
  pose proof (@update_changes_supplied_fields nat nat unit unit nat_step (fun _ => "") (fun _ => "")
                (fun _ => "") 7 ch_st1 ch_w0 3 (mkUserConfig (Some "bob") None) _ Hm) as H.
  destruct H as [st' [effs [H1 [H2 _]]]].
  exists st', effs. split; [exact H1|]. rewrite H2. reflexivity.
Defined.

Lemma init_then_close_restores_roster_witness :
  exists effs,
    run0 7 ch_st0 ch_w0 [mkRequest 3 (RInit true None 5); mkRequest 3 RClose] =
      (mkChannelState (member_data ch_st0) (doc_state ch_st0), mkWorld ∅ 1 true 1, effs).
Proof.
  assert (Hn : member_data ch_st0 !! 3 = None) by reflexivity.
  assert (Hr : true = true -> (0 < receivers ch_w0)%nat) by (intros _; cbn; lia).
  pose proof (@init_then_close_restores_roster nat nat unit unit nat_step (fun _ => "") (fun _ => "")
                (fun _ => "") 7 ch_st0 ch_w0 3 true None 5 Hn Hr) as H.
  exact H.
Defined.

Lemma steps_batches_compose_witness :
  doc_state (fst (fst (run0 7 ch_st0 ch_w0
    [mkRequest 1 (RSteps 0 [1%nat]); mkRequest 2 (RSteps 1 [2%nat])]))) = mkDocState 3%nat 2 /\
  doc_state (fst (fst (run0 7 ch_st0 ch_w0 [mkRequest 1 (RSteps 0 [1%nat; 2%nat])]))) =
    mkDocState 3%nat 2.
Proof.
  assert (Hr : (0 < receivers ch_w0)%nat) by (cbn; lia).
  assert (Hd : apply_rest nat_step (doc (doc_state ch_st0)) (1%nat :: [] ++ 2%nat :: []) = inr 3%nat)
    by reflexivity.
  pose proof (@steps_batches_compose nat nat unit unit nat_step (fun _ => "") (fun _ => "")
                (fun _ => "") 7 1 2 ch_st0 ch_w0 1%nat 2%nat [] [] 3%nat Hr Hd) as H.
  exact H.
Defined.

Lemma signals_delivered_in_order_witness :
  exists w' effs,
    run0 7 ch_st1 ch_w1 [mkRequest 1 (RSignal (mkSignal 1 3 tt)); mkRequest 1 (RSignal (mkSignal 1 3 tt))]
      = (ch_st1, w', effs) /\
    queues w' !! 5 = Some (mkSigQueue [mkSignal 1 3 tt; mkSignal 1 3 tt] true).
Proof.
  assert (Hm : member_data ch_st1 !! 3 = Some (mkUserData "ada" false 5)) by reflexivity.
  assert (Hf : Forall (fun s => reciever s = 3) [mkSignal 1 3 tt; mkSignal 1 3 tt])
    by (repeat constructor).
  assert (Hq : queues ch_w1 !! sig_tx (mkUserData "ada" false 5) = Some (mkSigQueue [] true))
    by reflexivity.
  assert (Hl : (length (@nil (@Signal unit)) + length [mkSignal 1 3 tt; mkSignal 1 3 tt] <= SIG_CAPACITY)%nat)
    by (unfold SIG_CAPACITY; cbn; lia).
  pose proof (@signals_delivered_in_order nat nat unit unit nat_step (fun _ => "") (fun _ => "")
                (fun _ => "") 7 1 ch_st1 3 _ _ Hm Hf ch_w1 [] Hq Hl) as H.
  destruct H as [w' [effs [H1 [H2 _]]]].
  exists w', effs. exact (conj H1 H2).
Defined.

End ChannelFacts.

Module LobbyFacts.
Import Lobby LobbyInvariant.

(** [run] with the effects of every step, in order. *)
Fixpoint join_all (s : LobbyState) (ps : list string)
    : option (LobbyState * list LobbyEffect) :=
  match ps with
  | [] => Some (s, [])
  | p :: ps' =>
      match handle_join_request s p with
      | None => None
      | Some (s1, e1) =>
          match join_all s1 ps' with
          | None => None
          | Some (s2, e2) => Some (s2, e1 ++ e2)
          end
      end
  end.

(** The user ids of the successful join replies. *)
Definition reply_ids (effs : list LobbyEffect) : list N :=
  omap (fun e => match e with Reply (inr r) => Some (jr_id r) | _ => None end) effs.

(** A join of a path that is not registered and not a file path leaves
    the lobby as it was and answers with the error: [InvalidPath] with the
    path itself, or [IsFolder] with the folder's components. *)
Theorem join_rejected_unchanged (s : LobbyState) (p : string) :
  channel_names s !! p = None ->
  (check_name p = Invalid -> handle_join_request s p = Some (s, [Reply (inl (InvalidPath p))])) /\
  (forall comps, check_name p = Folder comps ->
     handle_join_request s p = Some (s, [Reply (inl (IsFolder comps))])).
Proof.
  intros Hn. unfold handle_join_request. rewrite Hn.
  split; [intros ->; reflexivity|intros comps ->; reflexivity].
Qed.

(** An end notification for a channel id the lobby does not hold (or one
    whose count is already 0) makes the lobby loop exit: no later event
    is processed. *)
Theorem end_of_unknown_channel_stops_lobby (s : LobbyState) (c : N) (evs : list LobbyEvent) :
  (channels s !! c = None \/ exists ch, channels s !! c = Some ch /\ count ch = 0) ->
  handle_end s c = (s, Break, [LogError]) /\ run s (EvEnd c :: evs) = None.
Proof.
  intros [Hc|(ch & Hc & H0)]; unfold run, handle_end; rewrite Hc; [split; reflexivity|].
  rewrite H0. split; reflexivity.
Qed.

(** The lobby registry stays consistent, and a join never hits the
    [unwrap] panic: from a consistent registry, while channel ids do not
    run out, every join succeeds and every processed end keeps it
    consistent; in particular a run of joins from the empty lobby never
    stops. *)
Theorem lobby_consistent_joins_never_panic :
  (forall s p, lobby_ok s -> next_cid s + 1 < WORD ->
     exists s' effs, handle_join_request s p = Some (s', effs) /\ lobby_ok s') /\
  (forall s c s' effs, lobby_ok s -> handle_end s c = (s', Continue, effs) -> lobby_ok s') /\
  (forall ps s, lobby_ok s -> next_cid s + N.of_nat (length ps) < WORD ->
     exists s' effs, join_all s ps = Some (s', effs) /\ lobby_ok s' /\
       run s (map EvJoin ps) = Some s').
Proof.
  split; [|split].
  - intros s p Hok Hw. destruct (join_preserves s p Hok Hw) as (s' & effs & H & Hok' & _). eauto.
  - exact end_preserves.
  - induction ps as [|p ps IH]; intros s Hok Hw.
    + exists s, []. split; [reflexivity|]. split; [exact Hok|reflexivity].
    + simpl in Hw. destruct (join_preserves s p Hok ltac:(lia)) as (s1 & e1 & H1 & Hok1 & Hn1).
      destruct (IH s1 Hok1 ltac:(lia)) as (s2 & e2 & H2 & Hok2 & Hr2).
      exists s2, (e1 ++ e2). simpl. rewrite H1, H2. split; [reflexivity|]. split; [exact Hok2|].
      exact Hr2.
Qed.

Lemma reply_ids_app (a b : list LobbyEffect) : reply_ids (a ++ b) = reply_ids a ++ reply_ids b.
Proof.
  unfold reply_ids. induction a as [|e a IH]; [reflexivity|].
  destruct e as [[]| | |]; cbn; rewrite ?IH; reflexivity.
Qed.

(** The user ids of a channel come from its own counter: [k] further joins
    of a registered path get the ids [next_id], [next_id + 1], ... in
    order, and bump the reference count by [k]; the first join of a file
    path gets id 0 in a fresh channel, so the joins of one path from an
    empty lobby get the ids 0, 1, 2, ... *)
Theorem channel_user_ids_sequential :
  (forall k s p c ch,
     channel_names s !! p = Some c -> channels s !! c = Some ch ->
     next_id ch + N.of_nat k < WORD -> count ch + N.of_nat k < WORD ->
     exists s' effs, join_all s (repeat p k) = Some (s', effs) /\
       reply_ids effs = map N.of_nat (seq (N.to_nat (next_id ch)) k) /\
       channels s' !! c = Some (mkLobbyChannel (next_id ch + N.of_nat k)
                                               (count ch + N.of_nat k) (path ch)) /\
       channel_names s' = channel_names s) /\
  (forall k p comps file,
     check_name p = File comps file -> N.of_nat k + 1 < WORD ->
     exists s' effs, join_all empty_lobby (repeat p (S k)) = Some (s', effs) /\
       reply_ids effs = map N.of_nat (seq 0 (S k))).
Proof.
  assert (Hseq : forall k s p c ch,
     channel_names s !! p = Some c -> channels s !! c = Some ch ->
     next_id ch + N.of_nat k < WORD -> count ch + N.of_nat k < WORD ->
     exists s' effs, join_all s (repeat p k) = Some (s', effs) /\
       reply_ids effs = map N.of_nat (seq (N.to_nat (next_id ch)) k) /\
       channels s' !! c = Some (mkLobbyChannel (next_id ch + N.of_nat k)
                                               (count ch + N.of_nat k) (path ch)) /\
       channel_names s' = channel_names s).
  { induction k as [|k IH]; intros s p c ch Hn Hc Hw1 Hw2.
    - exists s, []. simpl. rewrite !N.add_0_r. destruct ch; auto.
    - rewrite Nnat.Nat2N.inj_succ in Hw1, Hw2.
      cbn [repeat join_all]. unfold handle_join_request at 1. rewrite Hn, Hc. simpl.
      assert (Ha : forall x, x + 1 < WORD -> add64 x 1 = x + 1)
        by (intros x Hx; unfold add64; apply N.mod_small; exact Hx).
      rewrite !Ha by lia.
      destruct (IH (mkLobbyState (next_cid s)
                     (<[c := mkLobbyChannel (next_id ch + 1) (count ch + 1) (path ch)]> (channels s))
                     (channel_names s)) p c
                   (mkLobbyChannel (next_id ch + 1) (count ch + 1) (path ch)) Hn
                   (lookup_insert_eq _ _ _) ltac:(simpl; lia) ltac:(simpl; lia))
        as (s' & effs & Hj & Hids & Hch & Hnames).
      rewrite Hj. eexists _, _. split; [reflexivity|].
      split; [|split].
      + transitivity (next_id ch :: reply_ids effs); [reflexivity|]. rewrite Hids. simpl.
        rewrite N2Nat.inj_add. simpl. rewrite Nat.add_1_r, N2Nat.id. reflexivity.
      + rewrite Hch. simpl. do 2 f_equal; lia.
      + exact Hnames. }
  split; [exact Hseq|].
  intros k p comps file Hf Hk.
  cbn [repeat join_all]. unfold handle_join_request at 1. simpl.
  rewrite lookup_empty, Hf. simpl. change (add64 0 1) with 1.
  destruct (Hseq k (mkLobbyState 1 (<[0 := mkLobbyChannel 1 1 p]> ∅) (<[p := 0]> ∅)) p 0
              (mkLobbyChannel 1 1 p) (lookup_insert_eq _ _ _) (lookup_insert_eq _ _ _)
              ltac:(simpl; lia) ltac:(simpl; lia)) as (s' & effs & Hj & Hids & _).
  rewrite Hj. eexists _, _. split; [reflexivity|].
  transitivity (0 :: reply_ids effs); [reflexivity|]. rewrite Hids. reflexivity.
Qed.

(** Concrete instances of the hypotheses above. *)

Lemma join_rejected_unchanged_witness :
  handle_join_request empty_lobby "bad" = Some (empty_lobby, [Reply (inl (InvalidPath "bad"))]).
Proof.
  assert (Hn : channel_names empty_lobby !! "bad" = None) by reflexivity.
  assert (Hc : check_name "bad" = Invalid) by reflexivity.
  pose proof (proj1 (join_rejected_unchanged empty_lobby "bad" Hn) Hc) as H.
  exact H.
Defined.

Lemma end_of_unknown_channel_stops_lobby_witness :
  handle_end empty_lobby 0 = (empty_lobby, Break, [LogError]).
Proof.
  assert (Hc : channels empty_lobby !! 0 = None \/
               exists ch, channels empty_lobby !! 0 = Some ch /\ count ch = 0) by (left; reflexivity).
  pose proof (end_of_unknown_channel_stops_lobby empty_lobby 0 [] Hc) as H.
  exact (proj1 H).
Defined.

End LobbyFacts.

Module ConnectFacts.
Import Lobby Handshake Connect.

Definition padington_headers : list (string * string) := [(SEC_WEBSOCKET_PROTOCOL, "padington")].

Lemma join_reply_registered (s s' : LobbyState) (p : string) effs jr :
  handle_join_request s p = Some (s', effs) -> reply_of effs = Some (inr jr) ->
  channel_names s' !! p = Some (jr_channel jr).
Proof.
  unfold handle_join_request.
  destruct (channel_names s !! p) as [c|] eqn:Hn.
  - destruct (channels s !! c) as [ch|]; [|discriminate].
    destruct (counter_next (next_id ch)). intros [= <- <-] [= <-]. exact Hn.
  - destruct (check_name p); [intros [= <- <-]; discriminate|
      |intros [= <- <-]; discriminate].
    destruct (counter_next (next_cid s)), (counter_next 0).
    intros [= <- <-] [= <-]. cbn. apply lookup_insert_eq.
Qed.

Section Props.
Variable debug_header : string -> string.
Variable url_decode : string -> option string.
Variable debug_components : list string -> string.

(** The handshake accepts exactly the upgrade requests whose
    [Sec-WebSocket-Protocol] is ["padington"]: it then echoes that
    protocol, allows any origin and passes the URI on (or panics when the
    URI's receiver is gone); every other request is refused with 406 Not
    Acceptable and a message. *)
Theorem callback_accepts_only_padington (rx_open : bool) (req_headers rep : list (string * string))
    (uri : Uri) :
  (header_get SEC_WEBSOCKET_PROTOCOL req_headers = Some "padington" ->
   make_callback debug_header rx_open req_headers uri rep =
     if rx_open
     then Accept (rep ++ [(SEC_WEBSOCKET_PROTOCOL, "padington"); (ACCESS_CONTROL_ALLOW_ORIGIN, "*")]) uri
     else CallbackPanic) /\
  (header_get SEC_WEBSOCKET_PROTOCOL req_headers <> Some "padington" ->
   exists body, make_callback debug_header rx_open req_headers uri rep = Reject NOT_ACCEPTABLE (Some body)).
Proof.
  unfold make_callback. split.
  - intros ->. reflexivity.
  - intros Hne. destruct (header_get SEC_WEBSOCKET_PROTOCOL req_headers) as [v|]; [|eauto].
    destruct (String.eqb_spec v "padington"); [subst; congruence|eauto].
Qed.

Local Abbreviation conn := (connect debug_header url_decode debug_components).

(** Before it reaches the lobby, [handle_connection] leaves the lobby as it
    was: a refused handshake, a closed one-shot and a path that does not
    decode all end the connection with the lobby state unchanged. *)
Theorem connect_early_exits_leave_lobby (rx_open ws_ok lobby_open : bool) hs uri s :
  (header_get SEC_WEBSOCKET_PROTOCOL hs <> Some "padington" ->
   exists b, conn rx_open ws_ok lobby_open hs uri s = (Some s, Rejected NOT_ACCEPTABLE b)) /\
  (header_get SEC_WEBSOCKET_PROTOCOL hs = Some "padington" -> rx_open = false ->
   conn rx_open ws_ok lobby_open hs uri s = (Some s, Panicked)) /\
  (header_get SEC_WEBSOCKET_PROTOCOL hs = Some "padington" -> url_decode (uri_path uri) = None ->
   rx_open = true -> conn rx_open ws_ok lobby_open hs uri s = (Some s, Failed)).
Proof.
  unfold connect. split; [|split].
  - intros Hne. destruct (proj2 (callback_accepts_only_padington rx_open hs [] uri) Hne) as [b Hb].
    rewrite Hb. eauto.
  - intros Hh ->. rewrite (proj1 (callback_accepts_only_padington false hs [] uri) Hh). reflexivity.
  - intros Hh Hd ->. rewrite (proj1 (callback_accepts_only_padington true hs [] uri) Hh).
    cbn. rewrite Hd. reflexivity.
Qed.

(** After an accepted handshake whose path decodes to [p]: with the lobby
    gone the connection fails and nothing changes; a path the lobby
    reports as a folder gets the frames ["folder|<components>"] and Close
    and leaves the lobby as it was; a joined client is in the channel the
    lobby now registers under [p]. *)
Theorem connect_after_handshake (ws_ok : bool) (uri : Uri) (s : LobbyState) (p : string) :
  url_decode (uri_path uri) = Some p ->
  conn true ws_ok false padington_headers uri s = (Some s, Failed) /\
  (forall comps, channel_names s !! p = None -> check_name p = Folder comps -> ws_ok = true ->
     conn true ws_ok true padington_headers uri s =
       (Some s, FolderClosed [Session.Text ("folder|" ++ debug_components comps)%string;
                              Session.Close])) /\
  (forall s' jr q, conn true ws_ok true padington_headers uri s = (Some s', Joined jr q) ->
     q = p /\ channel_names s' !! p = Some (jr_channel jr)).
Proof.
  intros Hd. unfold connect, make_callback. cbn. rewrite Hd. split; [reflexivity|split].
  - intros comps Hn Hc ->. unfold join_channel, handle_join_request.
    rewrite Hn, Hc. reflexivity.
  - intros s' jr q. unfold join_channel.
    destruct (handle_join_request s p) as [[s1 effs]|] eqn:Hj; [|discriminate].
    destruct (reply_of effs) as [[e|r]|] eqn:Hr.
    + destruct e; [discriminate|destruct ws_ok; discriminate].
    + intros [= -> -> ->]. split; [reflexivity|]. exact (join_reply_registered _ _ _ _ _ Hj Hr).
    + discriminate.
Qed.

End Props.

Local Abbreviation conn0 := (connect (fun v => v) Some (fun _ => "[]"%string)).

Lemma connect_after_handshake_witness :
  conn0 true true false padington_headers (mkUri "/a/" None) empty_lobby = (Some empty_lobby, Failed).
Proof.
  assert (Hd : Some (uri_path (mkUri "/a/" None)) = Some "/a/"%string) by reflexivity.
  pose proof (proj1 (connect_after_handshake (fun v => v) Some (fun _ => "[]"%string)
                 true (mkUri "/a/" None) empty_lobby "/a/" Hd)) as H.
  exact H.
Defined.

End ConnectFacts.

Module HttpFacts.
Import Http.

Section Props.
Context {Version : Type}.
Variable debug_version : Version -> string.
Variable display_status : N -> string.
Variable to_str : list Byte.byte -> option string.

Local Abbreviation wh := (write_headers to_str).
Local Abbreviation wr := (write_response debug_version display_status to_str).

Definition header_line (k vs : string) : string := (k ++ ": " ++ vs ++ crlf)%string.

(** [write_response] writes the status line, one ["k: v\r\n"] line per
    header in order and a blank line, and succeeds, when every header value
    renders; otherwise it fails with [ToStr] at the first value that does
    not, having written the status line and the headers before it and no
    blank line. *)
Theorem write_response_output (version : Version) (status : N) hs :
  let status_line := (debug_version version ++ " " ++ display_status status ++ crlf)%string in
  (forall vss, Forall2 (fun kv vs => to_str (snd kv) = Some vs) hs vss ->
     wr version status hs =
       ((status_line ++ foldr (fun '(kv, vs) o => header_line (fst kv) vs ++ o)
                               EmptyString (zip hs vss) ++ crlf)%string, inr tt)) /\
  (forall pre k v post vss, hs = pre ++ (k, v) :: post -> to_str v = None ->
     Forall2 (fun kv vs => to_str (snd kv) = Some vs) pre vss ->
     wr version status hs =
       ((status_line ++ foldr (fun '(kv, vs) o => header_line (fst kv) vs ++ o)
                               EmptyString (zip pre vss))%string, inl ToStr)).
Proof.
  intros sl. unfold write_response. fold sl. split.
  - intros vss Hf.
    assert (wh hs = (foldr (fun '(kv, vs) o => header_line (fst kv) vs ++ o)%string
                           EmptyString (zip hs vss), true)) as ->; [|reflexivity].
    induction Hf as [|[k v] vs hs' vss' Hv _ IH]; [reflexivity|].
    cbn in Hv |- *. rewrite Hv, IH. reflexivity.
  - intros pre k v post vss -> Hv Hf.
    assert (wh (pre ++ (k, v) :: post) = (foldr (fun '(kv, vs) o => header_line (fst kv) vs ++ o)%string
                           EmptyString (zip pre vss), false)) as ->; [|reflexivity].
    induction Hf as [|[k' v'] vs hs' vss' Hv' _ IH]; [cbn; rewrite Hv; reflexivity|].
    cbn in Hv' |- *. rewrite Hv', IH. reflexivity.
Qed.

End Props.
End HttpFacts.
